(** * git-mcp: the git tools MCP server, embedded and verified

    A shallow embedding of the TypeScript sources of the git tools server
    ([src/index.ts], its later revision with the [GitToolsMcpServerConfig]
    constructor, and the SSE entry point) together with the statements the
    specification makes about them.

    Layout: Part I holds the definitions (JavaScript and Node primitives the
    handlers call, the asynchronous effect monad, the six tool capabilities,
    the server constructor, the registry and dispatch layer, the SSE entry
    point). Part II holds the lemmas and theorems. *)

From Stdlib Require Import ZArith Lia Ascii String DecimalString.
From stdpp Require Import base list strings gmap.

Open Scope string_scope.

(* ===================================================================== *)
(** * Part I: definitions                                                 *)
(* ===================================================================== *)

(** ** JavaScript primitives

    A JavaScript string is held as the bytes of its UTF-8 encoding, the
    form in which the output of a child process reaches the handlers and in
    which a result leaves the server. Every character the sources test for
    or insert (the slash, the dot, the quote, the backslash, the control
    characters) is a single byte that occurs in no longer encoding, so the
    path functions and [JSON.stringify] read the bytes one at a time; only
    [trim] has to recognise characters of two and three bytes. *)
Module Js.

(** The double-quote character and the line feed, which cannot be typed
    inside a string literal. *)
Definition dquote_char : ascii := ascii_of_nat 34.
Definition dq : string := String dquote_char EmptyString.
Definition lf_char : ascii := ascii_of_nat 10.
Definition nl : string := String lf_char EmptyString.

(** The no-break space U+00A0, two bytes long. *)
Definition nbsp : string :=
  String (ascii_of_nat 194) (String (ascii_of_nat 160) EmptyString).

(** [String.prototype.trim] removes the white space and the line
    terminators of ECMAScript: TAB, LF, VT, FF, CR, SPACE, U+00A0, U+1680,
    U+2000 to U+200A, U+2028, U+2029, U+202F, U+205F, U+3000 and U+FEFF.
    The first six are one byte long. *)
Definition is_whitespace (c : ascii) : bool :=
  match nat_of_ascii c with
  | 9 | 10 | 11 | 12 | 13 | 32 => true
  | _ => false
  end.

(** The one of two bytes: U+00A0, encoded [C2 A0]. *)
Definition is_whitespace2 (c d : ascii) : bool :=
  ((N_of_ascii c =? 194) && (N_of_ascii d =? 160))%N.

(** Those of three bytes: U+1680 [E1 9A 80], U+2000 to U+200A [E2 80 80]
    to [E2 80 8A], U+2028 [E2 80 A8], U+2029 [E2 80 A9], U+202F
    [E2 80 AF], U+205F [E2 81 9F], U+3000 [E3 80 80] and U+FEFF
    [EF BB BF]. *)
Definition is_whitespace3 (c d e : ascii) : bool :=
  let first := N_of_ascii c in
  let second := N_of_ascii d in
  let third := N_of_ascii e in
  ((first =? 225) && (second =? 154) && (third =? 128)
   || (first =? 226) && (second =? 128)
      && ((128 <=? third) && (third <=? 138)
          || (third =? 168) || (third =? 169) || (third =? 175))
   || (first =? 226) && (second =? 129) && (third =? 159)
   || (first =? 227) && (second =? 128) && (third =? 128)
   || (first =? 239) && (second =? 187) && (third =? 191))%N.

(** [s.trimStart()]: the characters of white space at the start are
    dropped one after the other. *)
Fixpoint trimStart (s : string) : string :=
  match s with
  | EmptyString => EmptyString
  | String c rest =>
      if is_whitespace c then trimStart rest
      else
        match rest with
        | String d rest2 =>
            if is_whitespace2 c d then trimStart rest2
            else
              match rest2 with
              | String e rest3 =>
                  if is_whitespace3 c d e then trimStart rest3 else s
              | EmptyString => s
              end
        | EmptyString => s
        end
  end.

(** [s.trimEnd()]: the text is cut where what follows is white space
    only. *)
Fixpoint trimEnd (s : string) : string :=
  match s with
  | EmptyString => EmptyString
  | String c rest =>
      if trimStart s =? "" then EmptyString else String c (trimEnd rest)
  end.

(** [s.trim()] *)
Definition trim (s : string) : string := trimEnd (trimStart s).

(** Whether a text starts, or ends, with a character of white space. *)
Definition starts_with_whitespace (s : string) : bool :=
  match s with
  | String c rest =>
      is_whitespace c
      || match rest with
         | String d rest2 =>
             is_whitespace2 c d
             || match rest2 with
                | String e _ => is_whitespace3 c d e
                | EmptyString => false
                end
         | EmptyString => false
         end
  | EmptyString => false
  end.

(** The same test on the bytes of a text read from its end. *)
Definition ends_with_whitespace_rev (bytes : list ascii) : bool :=
  match bytes with
  | e :: before =>
      is_whitespace e
      || match before with
         | d :: before2 =>
             is_whitespace2 d e
             || match before2 with
                | c :: _ => is_whitespace3 c d e
                | [] => false
                end
         | [] => false
         end
  | [] => false
  end.

Definition ends_with_whitespace (s : string) : bool :=
  ends_with_whitespace_rev (rev (list_ascii_of_string s)).



(** The values a tool argument can hold. [Num n] is the number that the
    integer literal [n] denotes: [n] itself up to [2^53], the double nearest
    to [n] beyond, an infinity from [2^1024 - 2^970] on. The numbers with a
    fraction and [NaN] are left out of the model (the sources only ever
    interpolate a count). [Undefined] is a missing property. *)
Inductive value : Type :=
| Undefined
| Null
| Bool (b : bool)
| Num (n : Z)
| Str (s : string).

#[global] Instance value_eq_dec : EqDecision value.
Proof. solve_decision. Defined.

(** Truthiness, as tested by [cond ? a : b]. *)
Definition truthy (v : value) : bool :=
  match v with
  | Undefined | Null => false
  | Bool b => b
  | Num n => negb (n =? 0)%Z
  | Str s => negb (s =? "")
  end.

(** *** [Number::toString]

    The digits of an integer. *)
Definition decimal_digits (n : Z) : string := NilZero.string_of_int (Z.to_int n).

(** The double nearest to a natural number at or above [2^53], ties going
    to the even significand. *)
Definition nearest_double (n : Z) : Z :=
  let shift := (Z.log2 n - 52)%Z in
  let q := Z.shiftr n shift in
  let r := (n - Z.shiftl q shift)%Z in
  let half := Z.shiftl 1 (shift - 1) in
  let up := (half <? r)%Z || ((r =? half)%Z && Z.odd q) in
  Z.shiftl (if up then q + 1 else q)%Z shift.

(** Whether the integer [v] reads back as the double [x], for [x] at or
    above [2^53]: [v] lies between the midpoints to the neighbours of [x],
    the midpoints included when the significand of [x] is even. The
    neighbour below a power of two is half as far as the one above. *)
Definition reads_as (x v : Z) : bool :=
  let shift := (Z.log2 x - 52)%Z in
  let q := Z.shiftr x shift in
  let ulp := Z.shiftl 1 shift in
  let above := (2 * x + ulp)%Z in
  let below :=
    (2 * x - (if (q =? 4503599627370496)%Z then ulp / 2 else ulp))%Z in
  if Z.even q then (below <=? 2 * v)%Z && (2 * v <=? above)%Z
  else (below <? 2 * v)%Z && (2 * v <? above)%Z.

(** The integer with the fewest significant digits that reads back as
    [x]; the nearest to [x] if there are two, the one with the even last
    digit if both are as near. [p] is the power of ten being tried, from
    the weight of the first digit of [x] down to one. *)
Fixpoint shortest_from (fuel : nat) (p x : Z) : Z :=
  match fuel with
  | O => x
  | S fuel' =>
      let lower := (x / p * p)%Z in
      let upper := (lower + p)%Z in
      let lower_ok := (0 <? lower)%Z && reads_as x lower in
      let upper_ok := reads_as x upper in
      if lower_ok && upper_ok then
        if (x - lower <? upper - x)%Z then lower
        else if (upper - x <? x - lower)%Z then upper
        else if Z.even (x / p) then lower else upper
      else if lower_ok then lower
      else if upper_ok then upper
      else shortest_from fuel' (p / 10)%Z x
  end.

Definition shortest (x : Z) : Z :=
  let digits := String.length (decimal_digits x) in
  shortest_from digits (10 ^ (Z.of_nat digits - 1))%Z x.

Fixpoint strip_zeros (s : string) : string :=
  match s with
  | EmptyString => EmptyString
  | String c rest =>
      match strip_zeros rest with
      | EmptyString => if (c =? "0")%char then EmptyString else String c EmptyString
      | kept => String c kept
      end
  end.

(** Plain digits up to 21 of them, exponent notation beyond. *)
Definition render_digits (v : Z) : string :=
  let digits := decimal_digits v in
  if (String.length digits <=? 21)%nat then digits
  else
    let exponent := decimal_digits (Z.of_nat (String.length digits) - 1) in
    match strip_zeros digits with
    | String c EmptyString => String c ("e+" +:+ exponent)
    | String c rest => String c ("." +:+ rest +:+ "e+" +:+ exponent)
    | EmptyString => digits
    end.

(** The text of an integer-valued number: all its digits below [2^53];
    beyond, the shortest digits that read back as the same double, in
    exponent notation from [10^21] on. *)
Definition number_to_string (n : Z) : string :=
  if (Z.abs n <? 9007199254740992)%Z then decimal_digits n
  else
    let x := nearest_double (Z.abs n) in
    (if (n <? 0)%Z then "-" else "")
    +:+ (if (2 ^ 1024 <=? x)%Z then "Infinity" else render_digits (shortest x)).

(** String coercion performed by a template literal placeholder. *)
Definition to_string (v : value) : string :=
  match v with
  | Undefined => "undefined"
  | Null => "null"
  | Bool true => "true"
  | Bool false => "false"
  | Num n => number_to_string n
  | Str s => s
  end.

(** [xs.includes(x)] on an array of strings. *)
Fixpoint includes (xs : list string) (x : string) : bool :=
  match xs with
  | [] => false
  | y :: ys => if y =? x then true else includes ys x
  end.

(** [JSON.stringify] on an array of strings: quoting, with the escapes of
    the quote, the backslash and the control characters. *)
Definition hex_digit (n : nat) : ascii :=
  ascii_of_nat (if (n <? 10)%nat then 48 + n else 87 + n).

Definition json_escape_char (c : ascii) : string :=
  let n := nat_of_ascii c in
  match n with
  | 34 => String "\" dq
  | 92 => "\\"
  | 8 => "\b"
  | 9 => "\t"
  | 10 => "\n"
  | 12 => "\f"
  | 13 => "\r"
  | _ =>
      if (n <? 32)%nat
      then "\u00" +:+ String (hex_digit (n / 16)) (String (hex_digit (n mod 16)) EmptyString)
      else String c EmptyString
  end.

Fixpoint json_escape (s : string) : string :=
  match s with
  | EmptyString => EmptyString
  | String c rest => json_escape_char c +:+ json_escape rest
  end.

Definition json_string (s : string) : string := dq +:+ json_escape s +:+ dq.

Definition JSON_stringify (xs : list string) : string :=
  "[" +:+ String.concat "," (map json_string xs) +:+ "]".

End Js.

(** ** Node's POSIX [path] module

    [resolve], [dirname] and [join] as the handler of
    [get_git_repos_from_path] calls them. *)
Module NodePath.

Definition is_slash (c : ascii) : bool := Ascii.eqb c "/".

(** [path.charCodeAt(0) === 47] *)
Definition isAbsolute (path : string) : bool :=
  match path with
  | String c _ => is_slash c
  | EmptyString => false
  end.

(** The pieces of a path between separators. *)
Fixpoint split_slash (s : string) : list string :=
  match s with
  | EmptyString => [EmptyString]
  | String c rest =>
      if is_slash c then EmptyString :: split_slash rest
      else match split_slash rest with
           | seg :: segs => String c seg :: segs
           | [] => [String c EmptyString]
           end
  end.

(** [normalizeString]: drops empty and [.] segments and resolves [..]
    against the segment before it; above the top, [..] is kept only when
    [allowAboveRoot]. The accumulator holds the kept segments, last first. *)
Fixpoint normalize_segments (allowAboveRoot : bool) (acc : list string)
         (segs : list string) : list string :=
  match segs with
  | [] => rev acc
  | seg :: rest =>
      if (seg =? "") || (seg =? ".") then normalize_segments allowAboveRoot acc rest
      else if seg =? ".." then
        match acc with
        | last :: acc' =>
            if last =? ".."
            then normalize_segments allowAboveRoot (".." :: acc) rest
            else normalize_segments allowAboveRoot acc' rest
        | [] =>
            if allowAboveRoot
            then normalize_segments allowAboveRoot [".."] rest
            else normalize_segments allowAboveRoot [] rest
        end
      else normalize_segments allowAboveRoot (seg :: acc) rest
  end.

Definition normalizeString (path : string) (allowAboveRoot : bool) : string :=
  String.concat "/" (normalize_segments allowAboveRoot [] (split_slash path)).

(** [path.resolve(p)] with one argument, relative to the working
    directory [cwd] of the process. *)
Definition resolve (cwd path : string) : string :=
  let step (acc : string * bool) (p : string) : string * bool :=
    if snd acc then acc
    else if (String.length p =? 0)%nat then acc
    else (p +:+ "/" +:+ fst acc, isAbsolute p) in
  let '(resolvedPath, resolvedAbsolute) := fold_left step [path; cwd] ("", false) in
  let normalized := normalizeString resolvedPath (negb resolvedAbsolute) in
  if resolvedAbsolute then "/" +:+ normalized
  else if (0 <? String.length normalized)%nat then normalized else ".".

(** The backwards scan of [path.dirname]: [chars] are the characters at
    indices [i], [i-1], ..., 1 of the path. Returns the index [end] at
    which the scan breaks, if it does. *)
Fixpoint dirname_scan (chars : list ascii) (i : nat) (matchedSlash : bool)
  : option nat :=
  match chars with
  | [] => None
  | c :: below =>
      if is_slash c then
        if matchedSlash then dirname_scan below (pred i) matchedSlash
        else Some i
      else dirname_scan below (pred i) false
  end.

(** [path.dirname(p)] *)
Definition dirname (path : string) : string :=
  match path with
  | EmptyString => "."
  | String c0 rest =>
      let hasRoot := is_slash c0 in
      match dirname_scan (rev (list_ascii_of_string rest)) (String.length rest) true with
      | None => if hasRoot then "/" else "."
      | Some e =>
          if hasRoot && (e =? 1)%nat then "//" else substring 0 e path
      end
  end.

(** [path.normalize(p)] *)
Definition normalize (path : string) : string :=
  if (String.length path =? 0)%nat then "."
  else
    let absolute := isAbsolute path in
    let trailingSeparator :=
      match rev (list_ascii_of_string path) with
      | c :: _ => is_slash c
      | [] => false
      end in
    let p := normalizeString path (negb absolute) in
    if (String.length p =? 0)%nat then
      if absolute then "/" else if trailingSeparator then "./" else "."
    else
      let p' := if trailingSeparator then p +:+ "/" else p in
      if absolute then "/" +:+ p' else p'.

(** [path.join(a, b)] with two arguments. *)
Definition join (a b : string) : string :=
  let parts := filter (fun s => String.length s ≠ 0) [a; b] in
  match parts with
  | [] => "."
  | _ => normalize (String.concat "/" parts)
  end.

End NodePath.

(** ** Asynchronous effects

    A handler is an [async] function that shells out through [execAsync].
    The child process and the file system it inspects are the environment:
    a type of worlds and the result of running a command line in a world.
    A computation threads the world and either returns, throws (a rejected
    promise) or exhausts the step budget the model gives its loop. *)
Module Async.

Record ExecOutput : Type := { stdout : string; stderr : string }.

(** The settled promise of [promisify(exec)(cmd)]. *)
Inductive ExecResult : Type :=
| Resolved (out : ExecOutput)
| Rejected (error : string).

Class Env : Type := {
  World : Type;
  (** running a command line with the shell *)
  execAsync : string -> World -> ExecResult * World;
  (** [process.cwd()] *)
  cwd : string;
}.

Inductive Outcome (A : Type) : Type :=
| Returned (a : A)
| Threw (error : string)
| Diverged.
Arguments Returned {A} a.
Arguments Threw {A} error.
Arguments Diverged {A}.

Section Monad.
Context `{E : Env}.

Definition Async (A : Type) : Type := World -> Outcome A * World.

Definition ret {A} (a : A) : Async A := fun w => (Returned a, w).

Definition throw {A} (error : string) : Async A := fun w => (Threw error, w).

Definition diverge {A} : Async A := fun w => (Diverged, w).

Definition bind {A B} (m : Async A) (k : A -> Async B) : Async B :=
  fun w =>
    match m w with
    | (Returned a, w') => k a w'
    | (Threw e, w') => (Threw e, w')
    | (Diverged, w') => (Diverged, w')
    end.

(** [try { body } catch (e) { handler }] *)
Definition try_catch {A} (body : Async A) (handler : string -> Async A) : Async A :=
  fun w =>
    match body w with
    | (Threw e, w') => handler e w'
    | settled => settled
    end.

(** [await execAsync(cmd)] *)
Definition exec (cmd : string) : Async ExecOutput :=
  fun w =>
    match execAsync cmd w with
    | (Resolved out, w') => (Returned out, w')
    | (Rejected e, w') => (Threw e, w')
    end.
End Monad.

Notation "'let*' x ':=' m 'in' k" := (bind m (fun x => k))
  (at level 10, x name, m at level 100, k at level 200).

End Async.

(** ** Tool definitions and capabilities *)
Module Tool.
Import Async.

(** The zod schemas the sources write: an object of string and number
    fields, each optional or required. *)
Inductive ZodType : Type := ZString | ZNumber.

Record ZodField : Type := {
  field : string;
  type : ZodType;
  optional : bool;
  describe : string;
}.

(** [z.object({...})]; [closed] is zod's strict mode, which the sources
    never turn on. *)
Record ZodObject : Type := {
  shape : list ZodField;
  closed : bool;
}.

Definition z_object (fields : list ZodField) : ZodObject :=
  {| shape := fields; closed := false |}.

Record ToolAnnotations : Type := {
  title : string;
  readOnlyHint : option bool;
  destructiveHint : option bool;
  idempotentHint : option bool;
  openWorldHint : option bool;
}.

Record ToolDefinition : Type := {
  name : string;
  description : string;
  inputSchema : ZodObject;
  annotations : ToolAnnotations;
}.

(** The argument object of an invocation. *)
Abbreviation Args := (gmap string Js.value).

(** Property access: a missing property reads as [undefined]. *)
Definition prop (args : Args) (key : string) : Js.value :=
  default Js.Undefined (args !! key).

Inductive ContentBlock : Type :=
| TextContent (text : string).

(** [{ content: [...] }] *)
Record CallToolResult : Type := { content : list ContentBlock }.

(** [{ content: [{ type: "text", text }] }] *)
Definition text_result (text : string) : CallToolResult :=
  {| content := [TextContent text] |}.

Section Capability.
Context `{E : Env}.

Record ToolCapability : Type := {
  definition : ToolDefinition;
  handler : Args -> Async CallToolResult;
}.

(** Modelled from the spec: [createToolDefinition] of [utils/tools] is
    not among the sources; it yields the definition it is given. *)
Definition createToolDefinition (d : ToolDefinition) : ToolDefinition := d.

(** Modelled from the spec: [createTool] of [utils/tools] is not among
    the sources; it binds a handler to a definition (the tests read the
    two back as [definition] and [handler]). *)
Definition createTool (d : ToolDefinition)
           (h : Args -> Async CallToolResult) : ToolCapability :=
  {| definition := d; handler := h |}.
End Capability.

End Tool.

(** ** The git tools ([index.ts])

    The two revisions of the file among the sources declare the same six
    tools with the same handlers; the later one only lengthens the
    descriptions, which are advisory text. *)
Module GitTools.
Import Js NodePath Async Tool.

Definition read_only_annotations (t : string) : ToolAnnotations :=
  {| title := t;
     readOnlyHint := Some true;
     destructiveHint := Some false;
     idempotentHint := Some true;
     openWorldHint := Some false |}.

Definition repository_path_field : ZodField :=
  {| field := "path"; type := ZString; optional := false;
     describe := "Path to the git repository" |}.

Definition getGitReposTool : ToolDefinition :=
  createToolDefinition
    {| name := "get_git_repos_from_path";
       description :=
         "Get all parent git repositories from a given path (searches up the directory tree)";
       inputSchema :=
         z_object
           [ {| field := "path"; type := ZString; optional := false;
                describe :=
                  "Absolute or relative path to start searching for git repositories" |} ];
       annotations := read_only_annotations "Get Git Repos From Path" |}.

Definition getCurrentBranchTool : ToolDefinition :=
  createToolDefinition
    {| name := "get_current_branch";
       description := "Get the current git branch for a given repository path";
       inputSchema := z_object [ repository_path_field ];
       annotations := read_only_annotations "Get Current Branch" |}.

Definition getStatusTool : ToolDefinition :=
  createToolDefinition
    {| name := "get_git_status";
       description := "Get the git status for a given repository path";
       inputSchema := z_object [ repository_path_field ];
       annotations := read_only_annotations "Get Git Status" |}.

Definition getLogTool : ToolDefinition :=
  createToolDefinition
    {| name := "get_git_log";
       description := "Get the git log for a given repository path";
       inputSchema :=
         z_object
           [ repository_path_field;
             {| field := "maxCount"; type := ZNumber; optional := true;
                describe := "Maximum number of log entries to return" |} ];
       annotations := read_only_annotations "Get Git Log" |}.

Definition getRemotesTool : ToolDefinition :=
  createToolDefinition
    {| name := "get_git_remotes";
       description := "Get the git remotes for a given repository path";
       inputSchema := z_object [ repository_path_field ];
       annotations := read_only_annotations "Get Git Remotes" |}.

Definition getConfigTool : ToolDefinition :=
  createToolDefinition
    {| name := "get_git_config";
       description := "Get the git config for a given repository path";
       inputSchema := z_object [ repository_path_field ];
       annotations := read_only_annotations "Get Git Config" |}.

(** The command lines the handlers build. *)
Definition probe_command (gitDir : string) : string :=
  "[ -d " +:+ dq +:+ gitDir +:+ dq +:+ " ] && echo found || echo notfound".

Definition git_command (path rest : string) : string :=
  "git -C " +:+ dq +:+ path +:+ dq +:+ " " +:+ rest.

(** [maxCount ? `-n ${maxCount}` : ""] *)
Definition countArg (maxCount : value) : string :=
  if truthy maxCount then "-n " +:+ to_string maxCount else "".

Definition log_command (path maxCount : value) : string :=
  git_command (to_string path) ("log " +:+ countArg maxCount +:+ " --pretty=oneline").

Section Handlers.
Context `{E : Env}.

(** The [try { ... } catch {}] of the ancestor walk: two runs of the
    probe, the second one read; any rejection is swallowed. *)
Definition try_probe (current : string) (found : list string)
  : Async (list string) :=
  let gitDir := join current ".git" in
  try_catch
    (let* first := exec (probe_command gitDir) in
     let* second := exec (probe_command gitDir) in
     if trim (stdout second) =? "found"
     then ret (found ++ [current])%list
     else ret found)
    (fun _ => ret found).

(** The [while (true)] loop, one unit of [fuel] per iteration. *)
Fixpoint walk (fuel : nat) (current : string) (found : list string)
  : Async (list string) :=
  match fuel with
  | O => diverge
  | S fuel' =>
      let* found' := try_probe current found in
      let parent := dirname current in
      if parent =? current then ret found'
      else walk fuel' parent found'
  end.

(** Iterations granted to the walk from a starting directory. *)
Definition walk_budget (start : string) : nat :=
  2 * String.length start + 4.

(** [path.resolve] rejects anything but a string. *)
Definition getGitRepos_handler (args : Args) : Async CallToolResult :=
  match prop args "path" with
  | Str path =>
      let current := resolve cwd path in
      let* found := walk (walk_budget current) current [] in
      ret (text_result (JSON_stringify found))
  | _ => throw "ERR_INVALID_ARG_TYPE"
  end.

Definition getCurrentBranch_handler (args : Args) : Async CallToolResult :=
  let path := prop args "path" in
  let* out := exec (git_command (to_string path) "rev-parse --abbrev-ref HEAD") in
  ret (text_result (trim (stdout out))).

Definition getStatus_handler (args : Args) : Async CallToolResult :=
  let path := prop args "path" in
  let* out := exec (git_command (to_string path) "status --porcelain=v1 --branch") in
  ret (text_result (stdout out)).

Definition getLog_handler (args : Args) : Async CallToolResult :=
  let path := prop args "path" in
  let maxCount := prop args "maxCount" in
  let* out := exec (log_command path maxCount) in
  ret (text_result (stdout out)).

Definition getRemotes_handler (args : Args) : Async CallToolResult :=
  let path := prop args "path" in
  let* out := exec (git_command (to_string path) "remote -v") in
  ret (text_result (stdout out)).

Definition getConfig_handler (args : Args) : Async CallToolResult :=
  let path := prop args "path" in
  let* out := exec (git_command (to_string path) "config --list") in
  ret (text_result (stdout out)).

Definition gitTools : list ToolCapability :=
  [ createTool getGitReposTool getGitRepos_handler;
    createTool getCurrentBranchTool getCurrentBranch_handler;
    createTool getStatusTool getStatus_handler;
    createTool getLogTool getLog_handler;
    createTool getRemotesTool getRemotes_handler;
    createTool getConfigTool getConfig_handler ].
End Handlers.

End GitTools.

(** ** The registry and dispatch layer ([mcp-server], [types])

    [McpServer] and the configuration types are imported by [index.ts] but
    are not among the sources; this module states them as the specification
    describes them (sections 3, 4.2 to 4.4 and 7). *)
Module McpServer.
Import Async Tool.

(** Modelled from the spec: the mode of [ToolsetConfig] in [types], which
    is not among the sources (section 3: a [mode] enumeration with at
    least [readOnly] and [all]). *)
Inductive ToolsetMode : Type := readOnly | all.

(** Modelled from the spec: [ToolsetConfig] of [types]; the sources write
    it as [{ mode: "readOnly" }]. *)
Record ToolsetConfig : Type := { mode : ToolsetMode }.

(** Modelled from the spec: [DynamicToolDiscoveryOptions] of [types],
    which is not among the sources (section 3: an [enabled] flag). *)
Record DynamicToolDiscoveryOptions : Type := { enabled : bool }.

(** Modelled from the spec: the error kinds of the dispatch layer, which
    is not among the sources (the taxonomy of section 7). *)
Inductive ErrorKind : Type :=
| SchemaError
| NotFound
| ValidationError
| ToolExecutionError.

(** Modelled from the spec: the error object [Error{kind, message}] of
    section 6; a [ValidationError] carries the offending field paths
    (section 4.4). *)
Record ErrorObject : Type := {
  kind : ErrorKind;
  message : string;
  paths : list string;
}.

(** Modelled from the spec: the result of [InvokeCapability] (section 6:
    [ContentBlocks | Error{kind, message}]). *)
Inductive Response : Type :=
| ContentBlocks (blocks : list ContentBlock)
| Error (e : ErrorObject).

(** Modelled from the spec: the check of a value against the type of a
    schema field, part of the validation step below. *)
Definition has_type (t : ZodType) (v : Js.value) : bool :=
  match t, v with
  | ZString, Js.Str _ => true
  | ZNumber, Js.Num _ => true
  | _, _ => false
  end.

(** Modelled from the spec: a field passes when it is present with a
    value of its type, or missing and optional. *)
Definition field_ok (args : Args) (f : ZodField) : bool :=
  match prop args (field f) with
  | Js.Undefined => optional f
  | v => has_type (type f) v
  end.

(** Modelled from the spec: the properties of the argument object that
    the schema does not declare. *)
Definition unknown_fields (schema : ZodObject) (args : Args) : list string :=
  filter (fun k => k ∉ map field (shape schema)) (map fst (map_to_list args)).

(** Modelled from the spec: validation of an argument object against an
    input schema, which the missing dispatch engine performs (section
    4.4, step 2). The result lists the offending field paths: a field is
    offending when it is required and missing, or present with a value of
    the wrong type; in a closed schema every unknown property is
    offending too. No offending path means the arguments are valid. *)
Definition validate (schema : ZodObject) (args : Args) : list string :=
  (map field (filter (fun f => field_ok args f = false) (shape schema))
   ++ (if closed schema then unknown_fields schema args else []))%list.

Section Server.
Context `{E : Env}.

(** The object [GitToolsMcpServer] passes to [super(...)]. *)
Record McpServerConfig : Type := {
  name : string;
  version : string;
  toolsetConfig : ToolsetConfig;
  tools : list ToolCapability;       (* [capabilities.tools] *)
  dynamicToolDiscovery : DynamicToolDiscoveryOptions;
  instructions : option string;
}.

(** Modelled from the spec: a constructed [McpServer], holding the base
    list and the policy it was built with (section 4.3). *)
Record Server : Type := {
  config : McpServerConfig;
}.

(** The names of a list of capabilities, in order. *)
Definition tool_names (caps : list ToolCapability) : list string :=
  map (fun c => Tool.name (definition c)) caps.

(** Modelled from the spec: construction (sections 4.1 and 8) fails with
    [SchemaError] on an empty tool name or on two capabilities with the
    same name. *)
Definition construct (cfg : McpServerConfig) : ErrorObject + Server :=
  if decide ("" ∈ tool_names (tools cfg)) then
    inl {| kind := SchemaError; message := "empty tool name"; paths := [] |}
  else if decide (NoDup (tool_names (tools cfg))) then
    inr {| config := cfg |}
  else
    inl {| kind := SchemaError; message := "duplicate tool name"; paths := [] |}.

(** Modelled from the spec: the toolset policy by mode (section 4.2):
    [readOnly] admits a capability iff its [destructiveHint] is
    [false]; [all] admits every capability. *)
Definition isVisible (cap : ToolCapability) (cfg : ToolsetConfig) : bool :=
  match mode cfg with
  | readOnly =>
      bool_decide (destructiveHint (annotations (definition cap)) = Some false)
  | all => true
  end.

(** Modelled from the spec: the capabilities the registry currently
    advertises, the base list filtered by the policy (section 4.3). *)
Definition visible (srv : Server) : list ToolCapability :=
  filter (fun cap => isVisible cap (toolsetConfig (config srv)))
         (tools (config srv)).

(** Modelled from the spec: [list()] of the registry (section 4.3), the
    visible definitions in registration order. *)
Definition registry_list (srv : Server) : list ToolDefinition :=
  map definition (visible srv).

(** Modelled from the spec: [resolve(name)] of the registry (section
    4.3), which consults the same visibility as [list]: the name is
    looked up among the visible capabilities only; [None] is the miss. *)
Definition resolve (srv : Server) (n : string) : option ToolCapability :=
  head (filter (fun cap => Tool.name (definition cap) = n) (visible srv)).

(** Modelled from the spec: what a dispatch did, its response and the
    handler calls it made (section 4.4). *)
Record Dispatch : Type := {
  response : Outcome Response;
  handler_calls : list (string * Args);
}.

(** Modelled from the spec: the [List] request (sections 4.4 and 6). *)
Definition ListCapabilities (srv : Server) : list ToolDefinition :=
  registry_list srv.

(** Modelled from the spec: the dispatch that fails with [NotFound] and
    calls no handler (section 4.4, step 1). *)
Definition not_found (n : string) : Dispatch :=
  {| response := Returned (Error {| kind := NotFound; message := n; paths := [] |});
     handler_calls := [] |}.

(** Modelled from the spec: [Invoke(name, args)] of the dispatch engine
    (section 4.4): resolve, validate, call the handler, wrap its content
    or classify its failure. *)
Definition InvokeCapability (srv : Server) (n : string) (args : Args)
  : World -> Dispatch * World :=
  fun w =>
    match resolve srv n with
    | None => (not_found n, w)
    | Some cap =>
        match validate (inputSchema (definition cap)) args with
        | [] =>
            match handler cap args w with
            | (Returned result, w') =>
                ({| response := Returned (ContentBlocks (content result));
                    handler_calls := [(n, args)] |}, w')
            | (Threw e, w') =>
                ({| response :=
                      Returned (Error {| kind := ToolExecutionError;
                                         message := e; paths := [] |});
                    handler_calls := [(n, args)] |}, w')
            | (Diverged, w') =>
                ({| response := Diverged; handler_calls := [(n, args)] |}, w')
            end
        | offending =>
            ({| response :=
                  Returned (Error {| kind := ValidationError;
                                     message := "invalid arguments";
                                     paths := offending |});
                handler_calls := [] |}, w)
        end
    end.
End Server.

End McpServer.

(** ** The server class ([index.ts], later revision) *)
Module GitToolsMcpServer.
Import Async Tool GitTools McpServer.

Record GitToolsMcpServerConfig : Type := {
  toolsetConfig : option ToolsetConfig;
  dynamicToolDiscovery : option DynamicToolDiscoveryOptions;
  availableTools : option (list string);
}.

(** The default argument [config = {}]. *)
Definition empty_config : GitToolsMcpServerConfig :=
  {| toolsetConfig := None; dynamicToolDiscovery := None; availableTools := None |}.

Section Constructor.
Context `{E : Env}.

(** The value of [capabilities.tools]:
    [config.availableTools?.length
       ? config.availableTools?.length > 0
         ? gitTools.filter(tool => config.availableTools?.includes(tool.definition.name))
         : gitTools
       : gitTools]. *)
Definition registered_tools (config : GitToolsMcpServerConfig)
  : list ToolCapability :=
  match availableTools config with
  | None => gitTools
  | Some allowed =>
      if negb (length allowed =? 0)%nat then
        if (0 <? length allowed)%nat then
          filter (fun tool => Js.includes allowed (Tool.name (definition tool)))
                 gitTools
        else gitTools
      else gitTools
  end.

(** The argument of [super(...)]. *)
Definition super_config (config : GitToolsMcpServerConfig) : McpServerConfig :=
  {| name := "git-tools-server";
     version := "1.0.0";
     McpServer.toolsetConfig :=
       default {| mode := readOnly |} (toolsetConfig config);
     tools := registered_tools config;
     McpServer.dynamicToolDiscovery :=
       default {| enabled := true |} (dynamicToolDiscovery config);
     instructions :=
       Some "Git Tools MCP server. This server provides tools for interacting with git repositories. before all requests you have to use the tool get_git_repos_from_path to get the git repositories from a given path. Then you can use the other tools with the path of the git repository." |}.

(** [new GitToolsMcpServer(config)] *)
Definition new (config : GitToolsMcpServerConfig) : ErrorObject + Server :=
  construct (super_config config).

(** The policy predicate of the specification (section 4.2), in its
    words: the mode check and the allow-list check, both of which must
    pass; an absent or empty allow-list restricts nothing. *)
Definition spec_isVisible (config : GitToolsMcpServerConfig)
           (cap : ToolCapability) : bool :=
  isVisible cap (default {| mode := readOnly |} (toolsetConfig config))
  && match availableTools config with
     | None | Some [] => true
     | Some allowed => bool_decide (Tool.name (definition cap) ∈ allowed)
     end.
End Constructor.

End GitToolsMcpServer.

(** ** The SSE entry point ([bin/sse.ts])

    The module keeps one variable [transport]; the two routes read and
    write it. A connection is named by its response stream; a posted
    message names the session that sent it. *)
Module Sse.

Definition Connection : Type := nat.

(** [new SSEServerTransport(endpoint, res)] *)
Record SSEServerTransport : Type := {
  endpoint : string;
  res : Connection;
}.

Record PostRequest : Type := {
  sessionId : Connection;
  body : string;
}.

#[global] Instance transport_eq_dec : EqDecision SSEServerTransport.
Proof. solve_decision. Defined.

Record State : Type := {
  (** [let transport: SSEServerTransport | null] *)
  transport : option SSEServerTransport;
  (** the calls [server.server.connect(t)] made so far *)
  connected : list SSEServerTransport;
  (** the calls [t.handlePostMessage(req, res)] made so far *)
  handled : list (SSEServerTransport * PostRequest);
}.

Definition initial : State :=
  {| transport := None; connected := []; handled := [] |}.

Inductive Request : Type :=
| GetSse (res : Connection)
| PostMessages (req : PostRequest).

(** [app.get("/sse", ...)] *)
Definition get_sse (r : Connection) (st : State) : State :=
  let t := {| endpoint := "/messages"; res := r |} in
  {| transport := Some t;
     connected := (connected st ++ [t])%list;
     handled := handled st |}.

(** [app.post("/messages", ...)] *)
Definition post_messages (req : PostRequest) (st : State) : State :=
  match transport st with
  | Some t =>
      {| transport := transport st;
         connected := connected st;
         handled := (handled st ++ [(t, req)])%list |}
  | None => st
  end.

Definition step (st : State) (r : Request) : State :=
  match r with
  | GetSse c => get_sse c st
  | PostMessages req => post_messages req st
  end.

Definition run (requests : list Request) : State :=
  fold_left step requests initial.

(** The sessions opened by a request sequence. *)
Definition opened (requests : list Request) : list Connection :=
  omap (fun r => match r with GetSse c => Some c | PostMessages _ => None end)
       requests.

End Sse.

(** ** The test helper ([__tests__/git-tools-server.test.ts])

    [getToolHandler(name)] finds the capability by its definition's name
    and gives its handler; [None] stands for the [Error] it throws when no
    tool has the name. *)
Module TestHarness.
Import Async Tool GitTools.

Section Harness.
Context `{E : Env}.

Definition getToolHandler (n : string)
  : option (Args -> Async CallToolResult) :=
  handler <$> List.find (fun t => Tool.name (definition t) =? n) gitTools.
End Harness.

End TestHarness.

(** ** Reference notions for the ancestor walk

    What the walk is compared with: the chain of parents of a directory,
    one visit per directory of a list, and the outcome of the probe of one
    directory. *)
Module Walk.
Import Js NodePath Async Tool GitTools.

(** A bound on the number of proper parents of a path. *)
Definition path_measure (s : string) : nat :=
  match s with
  | EmptyString => 3
  | _ => 2 * String.length s + (if (s =? "/") || (s =? ".") then 0 else 1)
  end.

(** [current], its parent, the parent of that, ..., up to the first
    directory that is its own parent. *)
Fixpoint chain (fuel : nat) (current : string) : list string :=
  match fuel with
  | O => []
  | S fuel' =>
      current ::
        (if dirname current =? current then [] else chain fuel' (dirname current))
  end.

Definition ancestors (start : string) : list string :=
  chain (walk_budget start) start.

Inductive ProbeOutcome : Type := ProbeFound | ProbeNotFound | ProbeThrew.

#[global] Instance ProbeOutcome_eq_dec : EqDecision ProbeOutcome.
Proof. solve_decision. Defined.

Section Probing.
Context `{E : Env}.

(** One visit per directory, in order. *)
Fixpoint visit_all (dirs : list string) (found : list string)
  : Async (list string) :=
  match dirs with
  | [] => ret found
  | d :: ds =>
      let* found' := try_probe d found in
      visit_all ds found'
  end.

(** How probing a directory ends: a run of the probe threw, or the
    output read was [found], or it was something else. *)
Definition probe (current : string) (w : World) : ProbeOutcome * World :=
  let cmd := probe_command (join current ".git") in
  match execAsync cmd w with
  | (Rejected _, w1) => (ProbeThrew, w1)
  | (Resolved _, w1) =>
      match execAsync cmd w1 with
      | (Rejected _, w2) => (ProbeThrew, w2)
      | (Resolved out, w2) =>
          (if trim (stdout out) =? "found" then ProbeFound else ProbeNotFound, w2)
      end
  end.

(** The outcomes of probing each directory of a list in turn. *)
Fixpoint survey (dirs : list string) (w : World)
  : list (string * ProbeOutcome) * World :=
  match dirs with
  | [] => ([], w)
  | d :: ds =>
      let '(o, w1) := probe d w in
      let '(rest, w2) := survey ds w1 in
      ((d, o) :: rest, w2)
  end.

(** The directories whose probe ended with [found]. *)
Definition repositories (log : list (string * ProbeOutcome)) : list string :=
  map fst (filter (fun e => snd e = ProbeFound) log).
End Probing.

End Walk.

(** ** The contract of the git program

    What the handlers rely on from the child process: the output of
    [git log --pretty=oneline], with or without [-n], and of
    [git rev-parse --abbrev-ref HEAD]. *)
Module Git.
Import Js Async.

Record Commit : Type := { hash : string; subject : string }.

(** One commit summary, as [--pretty=oneline] prints it. *)
Definition oneline (c : Commit) : string := hash c +:+ " " +:+ subject c.

(** The summaries joined by newlines, the last one terminated too. *)
Definition log_output (commits : list Commit) : string :=
  String.concat nl (map oneline commits) +:+ (if commits is [] then "" else nl).

(** The commits [git log] walks, newest first, cut by [-n]. *)
Definition limited (limit : option nat) (commits : list Commit) : list Commit :=
  match limit with
  | Some n => take n commits
  | None => commits
  end.

(** The command line as the shell receives it. *)
Definition log_command_line (path : string) (limit : option nat) : string :=
  match limit with
  | Some n =>
      "git -C " +:+ dq +:+ path +:+ dq +:+ " log -n "
        +:+ NilZero.string_of_uint (Nat.to_uint n) +:+ " --pretty=oneline"
  | None =>
      "git -C " +:+ dq +:+ path +:+ dq +:+ " log  --pretty=oneline"
  end.

Section Contract.
Context `{E : Env}.

(** In every world, [git log] on the repository at [path] prints the
    summaries of its commits, the first [n] of them under [-n n]. *)
Definition git_log_runs (path : string) (limit : option nat)
           (commits : list Commit) : Prop :=
  forall w,
    fst (execAsync (log_command_line path limit) w)
    = Resolved {| stdout := log_output (limited limit commits); stderr := "" |}.

(** In every world, [git rev-parse --abbrev-ref HEAD] on the repository
    at [path] prints the branch name and a newline. *)
Definition git_on_branch (path branch : string) : Prop :=
  forall w,
    fst (execAsync ("git -C " +:+ dq +:+ path +:+ dq
                      +:+ " rev-parse --abbrev-ref HEAD") w)
    = Resolved {| stdout := branch +:+ nl; stderr := "" |}.
End Contract.

End Git.

(** ** Concrete environments and capabilities used to exercise the model *)
Module Fixtures.
Import Js Async Tool GitTools McpServer Git.

Fixpoint scripted_result (table : list (string * ExecResult)) (cmd : string)
  : ExecResult :=
  match table with
  | [] => Rejected "command failed"
  | (c, r) :: rest => if c =? cmd then r else scripted_result rest cmd
  end.

(** A world that answers from a table of command lines and rejects all
    others; the world itself counts the commands run. *)
Definition scripted (table : list (string * ExecResult)) (dir : string) : Env :=
  {| World := nat;
     execAsync := fun cmd n => (scripted_result table cmd, S n);
     cwd := dir |}.

Definition ok (out : string) : ExecResult :=
  Resolved {| stdout := out; stderr := "" |}.

Definition history : list Commit :=
  [ {| hash := "c3c3c3c"; subject := "third change" |};
    {| hash := "b2b2b2b"; subject := "second change" |};
    {| hash := "a1a1a1a"; subject := "first change" |} ].

(** A repository at [/work/repo] on branch [main] with three commits;
    [/work] itself is not a repository and probing [/] fails. *)
Definition repo_env : Env :=
  scripted
    [ (log_command_line "/work/repo" (Some 2), ok (log_output (take 2 history)));
      (log_command_line "/work/repo" None, ok (log_output history));
      ("git -C " +:+ dq +:+ "/work/repo" +:+ dq +:+ " rev-parse --abbrev-ref HEAD",
       ok ("main" +:+ nl));
      (probe_command "/work/repo/.git", ok ("found" +:+ nl));
      (probe_command "/work/.git", ok ("notfound" +:+ nl)) ]
    "/work".

(** An environment in which every probe fails. *)
Definition failing_env : Env := scripted [] "/".

(** A machine on which no-break spaces turn up: the probe of
    [/work/repo] answers [found] between two of them, the probe of [/work]
    answers with one inside the text, and the branch checked out in
    [/work/repo] has one in its name. *)
Definition padded_env : Env :=
  scripted
    [ (probe_command "/work/repo/.git", ok (nbsp +:+ "found" +:+ nbsp +:+ nl));
      (probe_command "/work/.git", ok ("not" +:+ nbsp +:+ "found" +:+ nl));
      ("git -C " +:+ dq +:+ "/work/repo" +:+ dq +:+ " rev-parse --abbrev-ref HEAD",
       ok ("wip" +:+ nbsp +:+ "x" +:+ nl)) ]
    "/work".

Section Capabilities.
Context `{E : Env}.

(** A capability tagged destructive, for exercising the policy. *)
Definition deleteBranchTool : ToolDefinition :=
  createToolDefinition
    {| Tool.name := "delete_branch";
       description := "Delete a branch";
       inputSchema := z_object [ repository_path_field ];
       annotations :=
         {| title := "Delete Branch";
            readOnlyHint := Some false;
            destructiveHint := Some true;
            idempotentHint := Some false;
            openWorldHint := Some false |} |}.

Definition mixed_tools : list ToolCapability :=
  [ createTool getStatusTool getStatus_handler;
    createTool deleteBranchTool (fun _ => ret (text_result "deleted")) ].

Definition mixed_config : McpServerConfig :=
  {| McpServer.name := "mixed"; version := "0";
     McpServer.toolsetConfig := {| mode := readOnly |};
     tools := mixed_tools;
     McpServer.dynamicToolDiscovery := {| enabled := false |};
     instructions := None |}.
End Capabilities.

End Fixtures.

(** ** Environments whose answers do not change

    A stable environment answers a command line the same way in every
    world: the file system and the repositories stay as they are while a
    handler runs. *)
Module Stable.
Import Js Async.

(** Whether the settled run of a probe printed [found]. *)
Definition answers_found (r : ExecResult) : bool :=
  match r with
  | Resolved out => trim (stdout out) =? "found"
  | Rejected _ => false
  end.

Section Oracle.
Context `{E : Env}.

Definition stable (oracle : string -> ExecResult) : Prop :=
  forall cmd w, fst (execAsync cmd w) = oracle cmd.

(** No command line is rejected in any world. *)
Definition never_rejects : Prop :=
  forall cmd w, exists out w', execAsync cmd w = (Resolved out, w').
End Oracle.

End Stable.

(** ** Counting the commands a handler runs

    The environment [counted E] behaves as [E] and keeps, next to the world
    of [E], the number of command lines it was asked to run. *)
Module Counting.
Import Async.

Definition counted (E : Env) : Env :=
  {| World := (@World E * nat)%type;
     execAsync := fun cmd s =>
       let '(r, w') := @execAsync E cmd (fst s) in (r, (w', S (snd s)));
     cwd := @cwd E |}.

End Counting.

(** ** Normalized absolute paths

    The shape [path.resolve] gives its result: a slash followed by
    segments joined by slashes, no segment empty, [.] or [..] and none
    holding a slash. *)
Module NormalForm.
Import Js NodePath.

Fixpoint has_slash (s : string) : bool :=
  match s with
  | EmptyString => false
  | String c rest => is_slash c || has_slash rest
  end.

Definition clean_segment (s : string) : bool :=
  negb (s =? "") && negb (has_slash s) && negb (s =? ".") && negb (s =? "..").

(** A list of clean segments. *)
Abbreviation clean := (Forall (fun s => clean_segment s = true)).

(** The absolute path with the given segments; [render []] is the root. *)
Definition render (segs : list string) : string :=
  "/" +:+ String.concat "/" segs.

(** The segment lists of a directory and of all the directories above it,
    the deepest first; the argument holds the segments last first. *)
Fixpoint parents_desc (rsegs : list string) : list (list string) :=
  match rsegs with
  | [] => [[]]
  | x :: above => rev (x :: above) :: parents_desc above
  end.

(** The directory with the given segments and all the directories above
    it, the deepest first, the root last. *)
Definition lineage (segs : list string) : list string :=
  map render (parents_desc (rev segs)).

End NormalForm.

(** ** Reading a JSON string literal back

    The inverse of the quoting done by [JSON.stringify], used to show that
    the text of an answer determines the list it was made from. *)
Module JsonText.
Import Js.

Definition hex_value (c : ascii) : option nat :=
  let n := nat_of_ascii c in
  if (48 <=? n)%nat && (n <=? 57)%nat then Some (n - 48)
  else if (97 <=? n)%nat && (n <=? 102)%nat then Some (n - 87)
  else if (65 <=? n)%nat && (n <=? 70)%nat then Some (n - 55)
  else None.

Definition prepend (c : ascii) (r : option (string * string))
  : option (string * string) :=
  match r with
  | Some (decoded, tail) => Some (String c decoded, tail)
  | None => None
  end.

(** Reads the characters of a string literal after its opening quote, up
    to the closing quote: the text of the literal and what follows it. *)
Fixpoint read_literal (s : string) : option (string * string) :=
  match s with
  | EmptyString => None
  | String c rest =>
      if Ascii.eqb c dquote_char then Some (EmptyString, rest)
      else if Ascii.eqb c "\" then
        match rest with
        | EmptyString => None
        | String e rest1 =>
            if Ascii.eqb e dquote_char then prepend dquote_char (read_literal rest1)
            else if Ascii.eqb e "\" then prepend "\" (read_literal rest1)
            else if Ascii.eqb e "b" then prepend (ascii_of_nat 8) (read_literal rest1)
            else if Ascii.eqb e "t" then prepend (ascii_of_nat 9) (read_literal rest1)
            else if Ascii.eqb e "n" then prepend (ascii_of_nat 10) (read_literal rest1)
            else if Ascii.eqb e "f" then prepend (ascii_of_nat 12) (read_literal rest1)
            else if Ascii.eqb e "r" then prepend (ascii_of_nat 13) (read_literal rest1)
            else if Ascii.eqb e "u" then
              match rest1 with
              | String h1 (String h2 (String h3 (String h4 rest5))) =>
                  match hex_value h1, hex_value h2, hex_value h3, hex_value h4 with
                  | Some 0, Some 0, Some hi, Some lo =>
                      prepend (ascii_of_nat (16 * hi + lo)) (read_literal rest5)
                  | _, _, _, _ => None
                  end
              | _ => None
              end
            else None
        end
      else prepend c (read_literal rest)
  end.

(** What follows the first item of a printed array whose other items are
    [rest]. *)
Definition after_first (rest : list string) : string :=
  match rest with
  | [] => "]"
  | _ => "," +:+ String.concat "," (map json_string rest) +:+ "]"
  end.

End JsonText.

(** ** The walk written out in the test file

    The first test of [__tests__/git-tools-server.test.ts] repeats the
    ancestor walk of the handler with its own loop, which runs the probe
    once per directory. *)
Module TestLoop.
Import Js NodePath Async Tool GitTools.

Section Loop.
Context `{E : Env}.

(** The [try { ... } catch {}] of the test: one run of the probe. *)
Definition try_probe_once (current : string) (found : list string)
  : Async (list string) :=
  let gitDir := join current ".git" in
  try_catch
    (let* out := exec (probe_command gitDir) in
     if trim (stdout out) =? "found"
     then ret (found ++ [current])%list
     else ret found)
    (fun _ => ret found).

(** The [while (true)] loop of the test, one unit of [fuel] per
    iteration. *)
Fixpoint walk_once (fuel : nat) (current : string) (found : list string)
  : Async (list string) :=
  match fuel with
  | O => diverge
  | S fuel' =>
      let* found' := try_probe_once current found in
      let parent := dirname current in
      if parent =? current then ret found'
      else walk_once fuel' parent found'
  end.
End Loop.

End TestLoop.

(* ===================================================================== *)
(** * Part II: lemmas and theorems                                        *)
(* ===================================================================== *)

(** ** Facts about the string primitives *)
Module JsFacts.
Import Js.

Lemma substring_0_length (s : string) (n : nat) :
  n <= String.length s -> String.length (substring 0 n s) = n.
Proof.
  revert n. induction s as [|c s IH]; intros [|n] Hn; simpl in *; try lia.
  rewrite IH; lia.
Qed.

Lemma length_list_ascii (s : string) :
  length (list_ascii_of_string s) = String.length s.
Proof. induction s; simpl; congruence. Qed.

(** The bytes after the first of a longer character are not ASCII. *)
Lemma is_whitespace2_high (c d : ascii) :
  is_whitespace2 c d = true -> (128 <= N_of_ascii d)%N.
Proof.
  unfold is_whitespace2. rewrite andb_true_iff, !N.eqb_eq. lia.
Qed.

Lemma is_whitespace3_high (c d e : ascii) :
  is_whitespace3 c d e = true ->
  (128 <= N_of_ascii d)%N /\ (128 <= N_of_ascii e)%N.
Proof.
  unfold is_whitespace3.
  rewrite !orb_true_iff, !andb_true_iff, !orb_true_iff, !andb_true_iff,
    !N.eqb_eq, !N.leb_le.
  lia.
Qed.

Lemma is_whitespace2_nl (c : ascii) : is_whitespace2 c lf_char = false.
Proof.
  destruct (is_whitespace2 c lf_char) eqn:H; [|reflexivity].
  apply is_whitespace2_high in H.
  change (N_of_ascii lf_char) with 10%N in H. lia.
Qed.

Lemma is_whitespace3_nl (c d : ascii) : is_whitespace3 c d lf_char = false.
Proof.
  destruct (is_whitespace3 c d lf_char) eqn:H; [|reflexivity].
  apply is_whitespace3_high in H as [_ H].
  change (N_of_ascii lf_char) with 10%N in H. lia.
Qed.

(** The defining equation of [trimStart], one step at a time. *)
Lemma trimStart_eq (s : string) :
  trimStart s
  = match s with
    | EmptyString => EmptyString
    | String c rest =>
        if is_whitespace c then trimStart rest
        else
          match rest with
          | String d rest2 =>
              if is_whitespace2 c d then trimStart rest2
              else
                match rest2 with
                | String e rest3 =>
                    if is_whitespace3 c d e then trimStart rest3 else s
                | EmptyString => s
                end
          | EmptyString => s
          end
    end.
Proof. destruct s; reflexivity. Qed.

Lemma trimEnd_eq (c : ascii) (rest : string) :
  trimEnd (String c rest)
  = if trimStart (String c rest) =? "" then EmptyString
    else String c (trimEnd rest).
Proof. reflexivity. Qed.

(** Induction along the steps of [trimStart]: past one byte, past two,
    past three, or stop. *)
Lemma trimStart_steps (P : string -> Prop) :
  P "" ->
  (forall c rest, is_whitespace c = true ->
     trimStart (String c rest) = trimStart rest -> P rest -> P (String c rest)) ->
  (forall c d rest, is_whitespace c = false -> is_whitespace2 c d = true ->
     trimStart (String c (String d rest)) = trimStart rest ->
     P rest -> P (String c (String d rest))) ->
  (forall c d e rest, is_whitespace c = false -> is_whitespace2 c d = false ->
     is_whitespace3 c d e = true ->
     trimStart (String c (String d (String e rest))) = trimStart rest ->
     P rest -> P (String c (String d (String e rest)))) ->
  (forall c rest, is_whitespace c = false ->
     (forall d rest2, rest = String d rest2 -> is_whitespace2 c d = false) ->
     (forall d e rest3, rest = String d (String e rest3) -> is_whitespace3 c d e = false) ->
     trimStart (String c rest) = String c rest -> P (String c rest)) ->
  forall s, P s.
Proof.
  intros Hnil H1 H2 H3 Hstop s.
  remember (String.length s) as n eqn:Hn.
  revert s Hn. induction n as [n IH] using lt_wf_ind. intros s ->.
  destruct s as [|c rest]; [exact Hnil|].
  destruct (is_whitespace c) eqn:Hc.
  { apply H1; [exact Hc | rewrite trimStart_eq, Hc; reflexivity |].
    apply (IH (String.length rest)); [simpl; lia | reflexivity]. }
  destruct rest as [|d rest2].
  { apply Hstop; [exact Hc | discriminate | discriminate |].
    rewrite trimStart_eq, Hc. reflexivity. }
  destruct (is_whitespace2 c d) eqn:Hcd.
  { apply H2; [exact Hc | exact Hcd | rewrite trimStart_eq, Hc, Hcd; reflexivity |].
    apply (IH (String.length rest2)); [simpl; lia | reflexivity]. }
  destruct rest2 as [|e rest3].
  { apply Hstop; [exact Hc | intros ? ? [= <- <-]; exact Hcd | discriminate |].
    rewrite trimStart_eq, Hc, Hcd. reflexivity. }
  destruct (is_whitespace3 c d e) eqn:Hcde.
  { apply H3; [exact Hc | exact Hcd | exact Hcde
               | rewrite trimStart_eq, Hc, Hcd, Hcde; reflexivity |].
    apply (IH (String.length rest3)); [simpl; lia | reflexivity]. }
  apply Hstop; [exact Hc | intros ? ? [= <- <-]; exact Hcd
                | intros ? ? ? [= <- <- <-]; exact Hcde |].
  rewrite trimStart_eq, Hc, Hcd, Hcde. reflexivity.
Qed.


(** Trimming never lengthens, and what keeps its length is unchanged. *)
Lemma trimStart_length (s : string) :
  String.length (trimStart s) <= String.length s.
Proof.
  induction s as [|a rest Ha Heq IH|a d rest Ha Had Heq IH
                  |a d e rest Ha Had Hade Heq IH|a rest Ha _ _ Heq]
    using trimStart_steps; rewrite ?Heq; simpl in *; lia.
Qed.

Lemma trimStart_fixed (s : string) :
  String.length (trimStart s) = String.length s -> trimStart s = s.
Proof.
  destruct s as [|a rest Ha Heq|a d rest Ha Had Heq
                 |a d e rest Ha Had Hade Heq|a rest Ha _ _ Heq]
    using trimStart_steps; [done| | | |done];
    rewrite Heq; pose proof (trimStart_length rest); simpl; lia.
Qed.

Lemma trimEnd_length (s : string) :
  String.length (trimEnd s) <= String.length s.
Proof.
  induction s as [|c rest IH]; [done|]. rewrite trimEnd_eq.
  destruct (trimStart (String c rest) =? ""); simpl; lia.
Qed.

Lemma trimEnd_fixed (s : string) :
  String.length (trimEnd s) = String.length s -> trimEnd s = s.
Proof.
  induction s as [|c rest IH]; [done|]. rewrite trimEnd_eq.
  destruct (trimStart (String c rest) =? ""); simpl; [discriminate|].
  intros [= Hlen]. by rewrite IH.
Qed.

(** A text that [trim] leaves alone is left alone at each end. *)
Lemma trim_fixed (s : string) :
  trim s = s -> trimStart s = s /\ trimEnd s = s.
Proof.
  unfold trim. intros Heq.
  pose proof (trimStart_length s) as Hstart.
  pose proof (trimEnd_length (trimStart s)) as Hend.
  rewrite Heq in Hend.
  assert (Hs : trimStart s = s) by (apply trimStart_fixed; lia).
  split; [exact Hs|]. by rewrite Hs in Heq.
Qed.







(** A text without white space at its start is left alone by
    [trimStart]. *)
Lemma trimStart_kept (s : string) :
  starts_with_whitespace s = false -> trimStart s = s.
Proof.
  destruct s as [|c [|d [|e rest]]]; [done| | |]; cbn [starts_with_whitespace];
    rewrite ?orb_false_r, ?orb_false_iff; intros H; rewrite trimStart_eq.
  - by rewrite H.
  - destruct H as [-> ->]. done.
  - destruct H as (-> & -> & ->). done.
Qed.

Lemma ends_with_whitespace_rev_app (bytes more : list ascii) :
  ends_with_whitespace_rev bytes = true ->
  ends_with_whitespace_rev (bytes ++ more) = true.
Proof.
  destruct bytes as [|e [|d [|c before]]]; [done| | |]; cbn;
    rewrite ?orb_false_r; intros H.
  - by rewrite H.
  - apply orb_true_iff in H as [->| ->]; [done|].
    rewrite orb_true_r. by destruct more.
  - exact H.
Qed.

Lemma ends_with_whitespace_cons (c : ascii) (s : string) :
  ends_with_whitespace s = true -> ends_with_whitespace (String c s) = true.
Proof.
  unfold ends_with_whitespace. cbn [list_ascii_of_string rev].
  apply ends_with_whitespace_rev_app.
Qed.

(** A text made of white space only, unless empty, ends with white
    space. *)
Lemma all_whitespace_ends (s : string) :
  s <> "" -> trimStart s = "" -> ends_with_whitespace s = true.
Proof.
  induction s as [|a rest Ha Heq IH|a d rest Ha Had Heq IH
                  |a d e rest Ha Had Hade Heq IH|a rest Ha _ _ Heq]
    using trimStart_steps; intros Hne; rewrite ?Heq; try done; intros Hall.
  - destruct rest as [|b rest].
    + unfold ends_with_whitespace. cbn. by rewrite Ha.
    + by apply ends_with_whitespace_cons, IH.
  - destruct rest as [|b rest].
    + unfold ends_with_whitespace. cbn. rewrite Had. apply orb_true_r.
    + by apply ends_with_whitespace_cons, ends_with_whitespace_cons, IH.
  - destruct rest as [|b rest].
    + unfold ends_with_whitespace. cbn. rewrite Hade. by rewrite !orb_true_r.
    + by apply ends_with_whitespace_cons, ends_with_whitespace_cons,
           ends_with_whitespace_cons, IH.
Qed.

(** A text without white space at its end is left alone by [trimEnd]. *)
Lemma trimEnd_kept (s : string) :
  ends_with_whitespace s = false -> trimEnd s = s.
Proof.
  induction s as [|c rest IH]; [done|]. intros Hend. rewrite trimEnd_eq.
  destruct (String.eqb_spec (trimStart (String c rest)) "") as [Hall|_].
  - apply all_whitespace_ends in Hall; [congruence | done].
  - rewrite IH; [done|].
    destruct (ends_with_whitespace rest) eqn:Hrest; [|done].
    apply (ends_with_whitespace_cons c) in Hrest. congruence.
Qed.

Lemma trim_kept (s : string) :
  starts_with_whitespace s = false -> ends_with_whitespace s = false ->
  trim s = s.
Proof.
  intros Hstart Hend. unfold trim. rewrite (trimStart_kept s Hstart).
  by apply trimEnd_kept.
Qed.

End JsFacts.

(** ** Facts about [dirname] and the chain of parents *)
Module PathFacts.
Import Js NodePath GitTools Walk JsFacts.

Lemma dirname_scan_bound (chars : list ascii) (i : nat) (m : bool) (e : nat) :
  dirname_scan chars i m = Some e ->
  i = length chars ->
  1 <= e <= i /\ (m = true -> e < i).
Proof.
  revert i m. induction chars as [|c below IH]; intros i m; simpl; [discriminate|].
  intros H ->. simpl in H.
  destruct (is_slash c).
  - destruct m.
    + destruct (IH _ _ H eq_refl) as [? Hlt]. specialize (Hlt eq_refl). lia.
    + injection H as <-. split; [lia | discriminate].
  - destruct (IH _ _ H eq_refl) as [? _]. lia.
Qed.

Lemma path_measure_bounds (s : string) :
  s <> EmptyString ->
  2 * String.length s <= path_measure s <= 2 * String.length s + 1.
Proof.
  destruct s as [|c s]; [congruence|]. intros _. unfold path_measure.
  destruct (_ || _); lia.
Qed.

(** Taking the parent of a directory that is not its own parent
    decreases the measure. *)
Lemma dirname_decreases (s : string) :
  dirname s <> s -> path_measure (dirname s) < path_measure s.
Proof.
  destruct s as [|c0 rest]; [intros _; vm_compute; lia|].
  unfold dirname.
  destruct (dirname_scan _ _ _) as [e|] eqn:Hscan.
  - apply dirname_scan_bound in Hscan as [He Hlt];
      [|by rewrite length_rev, length_list_ascii].
    specialize (Hlt eq_refl). intros _.
    pose proof (path_measure_bounds (String c0 rest) ltac:(discriminate)) as Hb.
    simpl String.length in Hb.
    destruct (is_slash c0 && (e =? 1)%nat).
    + change (path_measure "//") with 5. lia.
    + assert (Hlen : String.length (substring 0 e (String c0 rest)) = e)
        by (apply substring_0_length; simpl; lia).
      assert (Hne : substring 0 e (String c0 rest) <> EmptyString)
        by (intros Heq; rewrite Heq in Hlen; simpl in Hlen; lia).
      pose proof (path_measure_bounds _ Hne) as Hb'. lia.
  - intros Hne.
    destruct rest as [|c1 rest].
    + unfold is_slash in *. destruct (Ascii.eqb_spec c0 "/") as [->|Hc].
      * congruence.
      * change (path_measure ".") with 2. unfold path_measure.
        destruct (String.eqb_spec (String c0 "") "/") as [[= ->]|_]; [congruence|].
        destruct (String.eqb_spec (String c0 "") ".") as [Heq|_]; [congruence|].
        simpl. lia.
    + pose proof (path_measure_bounds (String c0 (String c1 rest)) ltac:(discriminate)) as Hb.
      simpl String.length in Hb.
      destruct (is_slash c0); [change (path_measure "/") with 2 | change (path_measure ".") with 2]; lia.
Qed.





End PathFacts.

(** ** Facts about the ancestor walk *)
Module WalkFacts.
Import Js NodePath Async Tool GitTools Walk JsFacts PathFacts.




Lemma chain_measure (fuel : nat) (s d : string) :
  d ∈ chain fuel s -> path_measure d <= path_measure s.
Proof.
  revert s. induction fuel as [|fuel IH]; intros s; simpl.
  - intros H. inversion H.
  - rewrite elem_of_cons. intros [->|H]; [lia|].
    destruct (String.eqb_spec (dirname s) s) as [|Hne]; [inversion H|].
    apply IH in H. apply dirname_decreases in Hne. lia.
Qed.

Lemma chain_NoDup (fuel : nat) (s : string) : NoDup (chain fuel s).
Proof.
  revert s. induction fuel as [|fuel IH]; intros s; simpl; [constructor|].
  constructor.
  - destruct (String.eqb_spec (dirname s) s) as [|Hne]; [apply not_elem_of_nil|].
    intros Hin. apply chain_measure in Hin. apply dirname_decreases in Hne. lia.
  - destruct (dirname s =? s); [constructor | apply IH].
Qed.



Lemma walk_budget_enough (s : string) : path_measure s < walk_budget s.
Proof.
  unfold walk_budget. destruct s as [|c s]; [simpl; lia|].
  pose proof (path_measure_bounds (String c s) ltac:(discriminate)). lia.
Qed.

Section Effects.
Context `{E : Env}.

(** The [try]/[catch] block returns in every world; it pushes the
    directory exactly when its probe ends with [found]. *)
Lemma try_probe_probe (d : string) (found : list string) (w : World) :
  try_probe d found w
  = (Returned (if decide (fst (probe d w) = ProbeFound)
               then (found ++ [d])%list else found),
     snd (probe d w)).
Proof.
  unfold try_probe, probe, try_catch, bind, exec, ret.
  destruct (execAsync _ w) as [[out1|e1] w1]; simpl; [|reflexivity].
  destruct (execAsync _ w1) as [[out2|e2] w2]; simpl; [|reflexivity].
  destruct (trim (stdout out2) =? "found"); reflexivity.
Qed.

Lemma visit_all_survey (dirs found : list string) (w : World) :
  visit_all dirs found w
  = (Returned (found ++ repositories (fst (survey dirs w)))%list,
     snd (survey dirs w)).
Proof.
  revert found w. induction dirs as [|d ds IH]; intros found w; simpl.
  - unfold ret, repositories. simpl. by rewrite app_nil_r.
  - unfold bind. rewrite try_probe_probe.
    destruct (probe d w) as [o w1]; simpl.
    rewrite IH. destruct (survey ds w1) as [rest w2]; simpl.
    unfold repositories. rewrite filter_cons. simpl.
    destruct (decide (o = ProbeFound)); simpl; [|reflexivity].
    by rewrite <- app_assoc.
Qed.

Lemma survey_dirs (dirs : list string) (w : World) :
  map fst (fst (survey dirs w)) = dirs.
Proof.
  revert w. induction dirs as [|d ds IH]; intros w; simpl; [reflexivity|].
  destruct (probe d w) as [o w1]. specialize (IH w1).
  destruct (survey ds w1) as [rest w2]. simpl in *. congruence.
Qed.

(** Enough fuel: the loop visits the chain of parents, each once. *)
Lemma walk_visit_all (fuel : nat) (current : string) (found : list string)
      (w : World) :
  path_measure current < fuel ->
  walk fuel current found w = visit_all (chain fuel current) found w.
Proof.
  revert current found w.
  induction fuel as [|fuel IH]; intros current found w Hm; [lia|].
  cbn [walk chain visit_all]. unfold bind.
  destruct (try_probe current found w) as [[found'| |] w1]; try reflexivity.
  destruct (String.eqb_spec (dirname current) current) as [Heq|Hne].
  - reflexivity.
  - apply IH. apply dirname_decreases in Hne. lia.
Qed.

Lemma handler_walk (args : Args) (path : string) (w : World) :
  prop args "path" = Str path ->
  getGitRepos_handler args w
  = (Returned (text_result
                 (JSON_stringify
                    (repositories (fst (survey (ancestors (resolve cwd path)) w))))),
     snd (survey (ancestors (resolve cwd path)) w)).
Proof.
  intros Hpath. unfold getGitRepos_handler. rewrite Hpath.
  unfold bind. rewrite walk_visit_all by apply walk_budget_enough.
  fold (ancestors (resolve cwd path)). rewrite visit_all_survey. reflexivity.
Qed.

Lemma repositories_spec (log : list (string * ProbeOutcome)) (d : string) :
  d ∈ repositories log <-> (d, ProbeFound) ∈ log.
Proof.
  unfold repositories.
  change (map fst ?l) with (fst <$> l).
  rewrite list_elem_of_fmap. split.
  - intros (e & -> & Hin). apply list_elem_of_filter in Hin as [Ho Hin].
    destruct e as [d' o]. simpl in *. by subst.
  - intros Hin. exists (d, ProbeFound). split; [reflexivity|].
    apply list_elem_of_filter. auto.
Qed.

Lemma survey_functional (dirs : list string) (w : World) (d : string)
      (o1 o2 : ProbeOutcome) :
  NoDup dirs ->
  (d, o1) ∈ fst (survey dirs w) -> (d, o2) ∈ fst (survey dirs w) -> o1 = o2.
Proof.
  revert w. induction dirs as [|d0 ds IH]; intros w Hnd; simpl.
  - intros H. inversion H.
  - destruct (probe d0 w) as [o w1].
    pose proof (survey_dirs ds w1) as Hdirs. specialize (IH w1).
    destruct (survey ds w1) as [rest w2]. simpl in *.
    apply NoDup_cons in Hnd as [Hnotin Hnd].
    assert (Hrest : forall o', (d, o') ∈ rest -> d ∈ ds).
    { intros o' Hin. rewrite <- Hdirs. change (map fst rest) with (fst <$> rest).
      apply list_elem_of_fmap. by exists (d, o'). }
    rewrite !elem_of_cons.
    intros [Heq1|H1] [Heq2|H2].
    + congruence.
    + exfalso. injection Heq1 as -> _. eauto.
    + exfalso. injection Heq2 as -> _. eauto.
    + auto.
Qed.
End Effects.

End WalkFacts.

(** ** The handler of [get_git_repos_from_path] *)
Module GetGitRepos.
Import Js NodePath Async Tool GitTools Walk Fixtures JsFacts PathFacts WalkFacts.

(** C7. The handler never propagates a probe failure. Whatever the runs
    of the probe do in the world (resolve with [found], resolve with
    something else, or reject), the handler returns the success payload
    whose text is the JSON array of the ancestors whose probe ended with
    [found]; every ancestor of the resolved path is probed, also those
    after one whose probe threw, and a directory whose probe threw is not
    listed. *)
Theorem get_git_repos_swallows_probe_failures `{E : Env}
        (args : Args) (path : string) (w : World) :
  prop args "path" = Str path ->
  let start := resolve cwd path in
  let log := fst (survey (ancestors start) w) in
  getGitRepos_handler args w
  = (Returned (text_result (JSON_stringify (repositories log))),
     snd (survey (ancestors start) w))
  /\ map fst log = ancestors start
  /\ (forall d, d ∈ repositories log <-> (d, ProbeFound) ∈ log)
  /\ (forall d, (d, ProbeThrew) ∈ log -> d ∉ repositories log).
Proof.
  intros Hpath start log. split; [|split; [|split]].
  - exact (handler_walk args path w Hpath).
  - apply survey_dirs.
  - apply repositories_spec.
  - intros d Hthrew Hin. apply repositories_spec in Hin.
    assert (ProbeThrew = ProbeFound) as Heq; [|discriminate Heq].
    eapply survey_functional; [apply chain_NoDup | exact Hthrew | exact Hin].
Qed.

(** In [repo_env] the probes of [/work/repo/src] and of [/] reject, the
    one of [/work/repo] answers [found]: the repository is still listed. *)
Lemma get_git_repos_swallows_probe_failures_witness :
  @prop ({[ "path" := Str "repo/src" ]}) "path" = Str "repo/src"
  /\ @getGitRepos_handler repo_env {[ "path" := Str "repo/src" ]} 0
     = (Returned (text_result ("[" +:+ dq +:+ "/work/repo" +:+ dq +:+ "]")), 6)
  /\ (("/work/repo/src", ProbeThrew)
      ∈ fst (@survey repo_env (ancestors (resolve (@cwd repo_env) "repo/src")) 0)).
Proof.
  assert (Hp : @prop ({[ "path" := Str "repo/src" ]}) "path" = Str "repo/src")
    by reflexivity.
  split; [exact Hp|].
  destruct (@get_git_repos_swallows_probe_failures repo_env _ _ 0 Hp) as (H & _).
  split.
  - rewrite H. vm_compute. reflexivity.
  - vm_compute. apply list_elem_of_here.
Defined.



End GetGitRepos.

(** ** The handlers of [get_git_log] and [get_current_branch] *)
Module GitHandlers.
Import Js NodePath Async Tool GitTools TestHarness Git Fixtures JsFacts.

Section Commands.
Context `{E : Env}.

(** The handler of [get_git_log] runs one command and hands its output
    back unchanged. *)
Lemma getLog_runs (args : Args) (w : World) (out : ExecOutput) :
  fst (execAsync (log_command (prop args "path") (prop args "maxCount")) w)
  = Resolved out ->
  fst (getLog_handler args w) = Returned (text_result (stdout out)).
Proof.
  unfold getLog_handler, bind, exec, ret. intros H.
  destruct (execAsync _ w) as [r w1]. simpl in H. subst r. reflexivity.
Qed.


Lemma log_command_limit_2 (p : string) :
  log_command (Str p) (Num 2) = log_command_line p (Some 2).
Proof. reflexivity. Qed.

Lemma log_command_no_limit (p : string) :
  log_command (Str p) Undefined = log_command_line p None.
Proof. reflexivity. Qed.

Lemma log_command_zero (path : value) :
  log_command path (Num 0) = log_command path Undefined.
Proof. reflexivity. Qed.
End Commands.

(** C4. Invoking [get_git_log] with [{path: p, maxCount: 2}] on a
    repository with at least three commits (so that [git log -n 2] prints
    the summaries of its two newest commits) returns a success payload
    whose single text block is those two summaries joined by a newline,
    the last one terminated by a newline as git prints it. *)
Theorem get_git_log_max_count_2 `{E : Env}
        (args : Args) (p : string) (commits : list Commit) (w : World) :
  prop args "path" = Str p ->
  prop args "maxCount" = Num 2 ->
  3 <= length commits ->
  git_log_runs p (Some 2) commits ->
  exists h c1 c2 older,
    getToolHandler "get_git_log" = Some h
    /\ commits = c1 :: c2 :: older
    /\ fst (h args w)
       = Returned {| content :=
                       [TextContent (String.concat nl [oneline c1; oneline c2] +:+ nl)] |}.
Proof.
  intros Hpath Hcount Hlen Hgit.
  destruct commits as [|c1 [|c2 older]]; simpl in Hlen; try lia.
  exists getLog_handler, c1, c2, older.
  split; [reflexivity|]. split; [reflexivity|].
  rewrite (getLog_runs args w
             {| stdout := log_output (limited (Some 2) (c1 :: c2 :: older));
                stderr := "" |}).
  - reflexivity.
  - rewrite Hpath, Hcount, log_command_limit_2. apply Hgit.
Qed.

Lemma get_git_log_max_count_2_witness :
  exists h,
    @getToolHandler repo_env "get_git_log" = Some h
    /\ fst (h {[ "path" := Str "/work/repo"; "maxCount" := Num 2 ]} 0)
       = Returned (text_result ("c3c3c3c third change" +:+ nl
                                  +:+ "b2b2b2b second change" +:+ nl)).
Proof.
  destruct (@get_git_log_max_count_2 repo_env
              {[ "path" := Str "/work/repo"; "maxCount" := Num 2 ]}
              "/work/repo" history 0)
    as (h & c1 & c2 & older & Hh & Hc & Hrun).
  - reflexivity.
  - reflexivity.
  - simpl. lia.
  - intros w. reflexivity.
  - exists h. split; [exact Hh|].
    injection Hc as <- <- <-. exact Hrun.
Defined.



(** C9. [maxCount = 0] behaves as an omitted [maxCount]: the handler of
    [get_git_log] runs the same command line, without [-n], in both
    cases, so the two invocations agree in every world; where git prints
    the full log for that command line, the text block is the full log. *)
Theorem get_git_log_max_count_0 `{E : Env} (args : Args) (w : World) :
  getLog_handler (<["maxCount" := Num 0]> args) w
  = getLog_handler (delete "maxCount" args) w
  /\ (forall path, countArg (Num 0) = "" /\ log_command path (Num 0) = log_command path Undefined)
  /\ (forall p commits,
         prop args "path" = Str p ->
         git_log_runs p None commits ->
         fst (getLog_handler (<["maxCount" := Num 0]> args) w)
         = Returned (text_result (log_output commits))).
Proof.
  assert (Hpath0 : prop (<["maxCount" := Num 0]> args) "path" = prop args "path")
    by (unfold prop; rewrite lookup_insert_ne; [reflexivity | discriminate]).
  assert (Hcount0 : prop (<["maxCount" := Num 0]> args) "maxCount" = Num 0)
    by (unfold prop; rewrite lookup_insert_eq; reflexivity).
  split; [|split].
  - unfold getLog_handler. rewrite Hpath0, Hcount0.
    unfold prop. rewrite lookup_delete_eq, lookup_delete_ne by discriminate.
    reflexivity.
  - intros path. split; reflexivity.
  - intros p commits Hpath Hgit.
    rewrite (getLog_runs _ w {| stdout := log_output commits; stderr := "" |}).
    + reflexivity.
    + rewrite Hpath0, Hcount0, Hpath, log_command_zero, log_command_no_limit.
      apply Hgit.
Qed.

Lemma get_git_log_max_count_0_witness :
  fst (@getLog_handler repo_env {[ "path" := Str "/work/repo"; "maxCount" := Num 0 ]} 0)
  = Returned (text_result (log_output history))
  /\ @getLog_handler repo_env {[ "path" := Str "/work/repo"; "maxCount" := Num 0 ]} 0
     = @getLog_handler repo_env {[ "path" := Str "/work/repo" ]} 0.
Proof.
  destruct (@get_git_log_max_count_0 repo_env {[ "path" := Str "/work/repo" ]} 0)
    as (Hsame & _ & Hfull).
  split.
  - apply (Hfull "/work/repo" history); [reflexivity | intros w; reflexivity].
  - vm_compute. reflexivity.
Defined.

End GitHandlers.

(** ** Facts about the registry and the dispatch engine *)
Module RegistryFacts.
Import Js Async Tool GitTools McpServer.

Lemma includes_spec (xs : list string) (x : string) :
  Is_true (includes xs x) <-> x ∈ xs.
Proof.
  induction xs as [|y ys IH]; simpl.
  - split; [intros [] | intros H; inversion H].
  - rewrite elem_of_cons. destruct (String.eqb_spec y x) as [->|Hne].
    + split; [auto | intros _; exact I].
    + rewrite IH. split; [auto | intros [?|?]; congruence].
Qed.

Lemma filter_iff_in {A} (P1 P2 : A -> Prop)
      `{!forall x, Decision (P1 x)} `{!forall x, Decision (P2 x)} (l : list A) :
  (forall x, x ∈ l -> (P1 x <-> P2 x)) -> filter P1 l = filter P2 l.
Proof.
  induction l as [|a l IH]; intros Hiff; [reflexivity|].
  rewrite !filter_cons.
  rewrite IH by (intros x Hx; apply Hiff, list_elem_of_further, Hx).
  pose proof (Hiff a (list_elem_of_here _ _)).
  repeat case_decide; tauto.
Qed.

Section Server.
Context `{E : Env}.

Lemma construct_inr (cfg : McpServerConfig) (srv : Server) :
  construct cfg = inr srv ->
  config srv = cfg
  /\ ("" ∉ tool_names (tools cfg))
  /\ NoDup (tool_names (tools cfg)).
Proof.
  unfold construct. repeat case_decide; intros [= <-]; auto.
Qed.

Lemma construct_ok (cfg : McpServerConfig) :
  "" ∉ tool_names (tools cfg) ->
  NoDup (tool_names (tools cfg)) ->
  construct cfg = inr {| config := cfg |}.
Proof. intros H1 H2. unfold construct. repeat case_decide; tauto. Qed.

(** Under unique names, a name determines its capability. *)
Lemma unique_names (caps : list ToolCapability) (c1 c2 : ToolCapability) :
  NoDup (tool_names caps) ->
  c1 ∈ caps -> c2 ∈ caps ->
  Tool.name (definition c1) = Tool.name (definition c2) ->
  c1 = c2.
Proof.
  unfold tool_names. induction caps as [|c caps IH]; simpl.
  - intros _ H. inversion H.
  - rewrite NoDup_cons, !elem_of_cons. intros [Hnotin Hnd] H1 H2 Hname.
    assert (Hin : forall c', (c' ∈ caps) ->
              (Tool.name (definition c') ∈ map (fun c => Tool.name (definition c)) caps)).
    { intros c' Hc'.
      change (map ?f ?l) with (f <$> l). apply list_elem_of_fmap. eauto. }
    destruct H1 as [->|H1], H2 as [->|H2]; auto.
    + exfalso. apply Hnotin. rewrite Hname. auto.
    + exfalso. apply Hnotin. rewrite <- Hname. auto.
Qed.

Lemma visible_spec (srv : Server) (cap : ToolCapability) :
  cap ∈ visible srv
  <-> Is_true (isVisible cap (toolsetConfig (config srv))) /\ cap ∈ tools (config srv).
Proof. unfold visible. by rewrite list_elem_of_filter. Qed.

Lemma resolve_Some (srv : Server) (n : string) (cap : ToolCapability) :
  resolve srv n = Some cap ->
  cap ∈ visible srv /\ Tool.name (definition cap) = n.
Proof.
  unfold resolve. intros H. apply head_Some_elem_of in H.
  apply list_elem_of_filter in H. tauto.
Qed.

Lemma resolve_None (srv : Server) (n : string) :
  (forall cap, cap ∈ visible srv -> Tool.name (definition cap) <> n) ->
  resolve srv n = None.
Proof.
  unfold resolve. intros H.
  destruct (filter _ (visible srv)) as [|cap rest] eqn:Hf; [reflexivity|].
  exfalso.
  assert (Hin : cap ∈ filter (fun cap => Tool.name (definition cap) = n) (visible srv))
    by (rewrite Hf; apply list_elem_of_here).
  apply list_elem_of_filter in Hin as [Hn Hv]. exact (H cap Hv Hn).
Qed.

Lemma invoke_unresolved (srv : Server) (n : string) (args : Args) (w : World) :
  resolve srv n = None -> InvokeCapability srv n args w = (not_found n, w).
Proof. unfold InvokeCapability. intros ->. reflexivity. Qed.

Lemma listed_visible (srv : Server) (d : ToolDefinition) :
  d ∈ ListCapabilities srv <-> exists cap, cap ∈ visible srv /\ d = definition cap.
Proof.
  unfold ListCapabilities, registry_list. change (map ?f ?l) with (f <$> l).
  rewrite list_elem_of_fmap. split; intros (cap & ? & ?); eauto.
Qed.

(** A required field that is missing is among the offending paths. *)
Lemma validate_missing (schema : ZodObject) (args : Args) (f : ZodField) :
  f ∈ shape schema -> optional f = false -> args !! field f = None ->
  field f ∈ validate schema args.
Proof.
  intros Hin Hreq Hmiss. unfold validate. apply elem_of_app. left.
  change (map ?g ?l) with (g <$> l). apply list_elem_of_fmap.
  exists f. split; [reflexivity|]. apply list_elem_of_filter. split; [|exact Hin].
  unfold field_ok, prop. rewrite Hmiss. exact Hreq.
Qed.
End Server.

End RegistryFacts.

(** ** Facts about the server constructor *)
Module ConstructorFacts.
Import Js Async Tool GitTools McpServer GitToolsMcpServer RegistryFacts.

Section Constructor.
Context `{E : Env}.

Lemma gitTools_names :
  tool_names gitTools
  = [ "get_git_repos_from_path"; "get_current_branch"; "get_git_status";
      "get_git_log"; "get_git_remotes"; "get_git_config" ].
Proof. reflexivity. Qed.

(** The constructor only ever narrows the base list. *)
Lemma registered_sublist (config : GitToolsMcpServerConfig) :
  registered_tools config `sublist_of` gitTools.
Proof.
  unfold registered_tools.
  destruct (availableTools config) as [allowed|]; [|reflexivity].
  destruct (negb _); [|reflexivity].
  destruct (0 <? length allowed)%nat; [apply sublist_filter | reflexivity].
Qed.

Lemma registered_names_sublist (config : GitToolsMcpServerConfig) :
  tool_names (registered_tools config) `sublist_of` tool_names gitTools.
Proof.
  unfold tool_names. change (map ?f ?l) with (f <$> l).
  apply fmap_sublist, registered_sublist.
Qed.

(** Construction succeeds for every configuration. *)
Lemma new_ok (config : GitToolsMcpServerConfig) :
  new config = inr {| config := super_config config |}.
Proof.
  unfold new. apply construct_ok; cbn [tools super_config].
  - intros Hin. eapply elem_of_sublist in Hin; [|apply registered_names_sublist].
    rewrite gitTools_names in Hin.
    repeat (apply elem_of_cons in Hin as [Hin|Hin]; [discriminate Hin|]).
    inversion Hin.
  - eapply sublist_NoDup; [|apply registered_names_sublist].
    rewrite gitTools_names. compute_done.
Qed.

(** The tools registered under an allow-list with at least one name. *)
Lemma registered_allowed (config : GitToolsMcpServerConfig)
      (allowed : list string) :
  availableTools config = Some allowed -> allowed <> [] ->
  registered_tools config
  = filter (fun tool => Js.includes allowed (Tool.name (definition tool))) gitTools.
Proof.
  unfold registered_tools. intros -> Hne.
  destruct allowed as [|a rest]; [congruence | reflexivity].
Qed.

Lemma registered_unrestricted (config : GitToolsMcpServerConfig) :
  availableTools config = None \/ availableTools config = Some [] ->
  registered_tools config = gitTools.
Proof. unfold registered_tools. intros [-> | ->]; reflexivity. Qed.

(** The capabilities the server shows are the base list filtered by the
    policy predicate of the specification. *)
Lemma visible_policy (config : GitToolsMcpServerConfig) :
  visible {| config := super_config config |}
  = filter (fun cap => spec_isVisible config cap) gitTools.
Proof.
  unfold visible, spec_isVisible. cbn [McpServer.config tools super_config McpServer.toolsetConfig].
  destruct (availableTools config) as [[|a rest]|] eqn:Hav.
  - rewrite registered_unrestricted by auto.
    apply list_filter_iff. intros cap. rewrite andb_True. simpl. tauto.
  - rewrite (registered_allowed config (a :: rest)) by (auto; discriminate).
    rewrite list_filter_filter. apply list_filter_iff. intros cap.
    by rewrite andb_True, bool_decide_spec, includes_spec.
  - rewrite registered_unrestricted by auto.
    apply list_filter_iff. intros cap. rewrite andb_True. simpl. tauto.
Qed.
End Constructor.

End ConstructorFacts.

(** ** The toolset policy and the dispatch of invocations *)
Module Policy.
Import Js Async Tool GitTools McpServer Fixtures RegistryFacts ConstructorFacts.

(** C2. In mode [readOnly], a capability of the base list whose
    [destructiveHint] is [true] is absent from [ListCapabilities()] (no
    listed definition is its definition or has its name), does not
    resolve, and invoking it by name fails with [NotFound] for every
    argument object, without any handler being called. *)
Theorem read_only_hides_destructive `{E : Env}
        (cfg : McpServerConfig) (srv : Server) (C : ToolCapability) :
  construct cfg = inr srv ->
  mode (toolsetConfig cfg) = readOnly ->
  C ∈ tools cfg ->
  destructiveHint (annotations (definition C)) = Some true ->
  (definition C ∉ ListCapabilities srv)
  /\ (Tool.name (definition C) ∉ map Tool.name (ListCapabilities srv))
  /\ resolve srv (Tool.name (definition C)) = None
  /\ forall args w,
      InvokeCapability srv (Tool.name (definition C)) args w
      = ({| response :=
              Returned (Error {| kind := NotFound;
                                 message := Tool.name (definition C);
                                 paths := [] |});
            handler_calls := [] |}, w).
Proof.
  intros Hsrv Hmode HC Hhint.
  apply construct_inr in Hsrv as (Hcfg & _ & Hnd).
  assert (Hhidden : forall cap,
             (cap ∈ visible srv) ->
             Tool.name (definition cap) <> Tool.name (definition C)).
  { intros cap Hvis Hname. apply visible_spec in Hvis as [Hadm Hin].
    rewrite Hcfg in Hadm, Hin.
    assert (cap = C) as -> by (eapply unique_names; eauto).
    unfold isVisible in Hadm. rewrite Hmode, Hhint in Hadm.
    rewrite bool_decide_spec in Hadm. discriminate Hadm. }
  assert (Hres : resolve srv (Tool.name (definition C)) = None)
    by (apply resolve_None; exact Hhidden).
  split; [|split; [|split]].
  - intros Hin. apply listed_visible in Hin as (cap & Hvis & Hd).
    apply (Hhidden cap Hvis). by rewrite Hd.
  - change (map ?f ?l) with (f <$> l). rewrite list_elem_of_fmap.
    intros (d & Hname & Hin). apply listed_visible in Hin as (cap & Hvis & ->).
    apply (Hhidden cap Hvis). by rewrite Hname.
  - exact Hres.
  - intros args w. rewrite (invoke_unresolved _ _ _ _ Hres). reflexivity.
Qed.

Lemma read_only_hides_destructive_witness :
  exists srv,
    @construct repo_env mixed_config = inr srv
    /\ map Tool.name (ListCapabilities srv) = ["get_git_status"]
    /\ fst (InvokeCapability srv "delete_branch" {[ "path" := Str "/work/repo" ]} 0)
       = not_found "delete_branch".
Proof.
  exists {| config := @mixed_config repo_env |}.
  split; [reflexivity|].
  destruct (@read_only_hides_destructive repo_env mixed_config
              {| config := @mixed_config repo_env |}
              (createTool deleteBranchTool (fun _ => ret (text_result "deleted"))))
    as (_ & _ & _ & Hinvoke).
  - reflexivity.
  - reflexivity.
  - unfold mixed_config, mixed_tools; simpl.
    apply list_elem_of_further, list_elem_of_here.
  - reflexivity.
  - split; [reflexivity|].
    simpl Tool.name in Hinvoke. rewrite Hinvoke. reflexivity.
Defined.

(** C6. When a name resolves and the argument object misses a field that
    the capability's input schema requires, the invocation fails with a
    [ValidationError] whose paths include that field, no handler is
    called and the world is left as it was. *)
Theorem missing_required_field_rejected `{E : Env}
        (srv : Server) (n : string) (cap : ToolCapability)
        (args : Args) (f : ZodField) (w : World) :
  resolve srv n = Some cap ->
  f ∈ shape (inputSchema (definition cap)) ->
  optional f = false ->
  args !! field f = None ->
  exists e,
    InvokeCapability srv n args w
    = ({| response := Returned (Error e); handler_calls := [] |}, w)
    /\ kind e = ValidationError
    /\ field f ∈ paths e.
Proof.
  intros Hres Hin Hreq Hmiss.
  pose proof (validate_missing _ args f Hin Hreq Hmiss) as Hoff.
  unfold InvokeCapability. rewrite Hres.
  destruct (validate (inputSchema (definition cap)) args) as [|p ps] eqn:Hv.
  - inversion Hoff.
  - eexists. split; [reflexivity|]. split; [reflexivity|]. exact Hoff.
Qed.

Lemma missing_required_field_rejected_witness :
  exists srv e,
    @GitToolsMcpServer.new repo_env GitToolsMcpServer.empty_config = inr srv
    /\ InvokeCapability srv "get_git_log" {[ "maxCount" := Num 2 ]} 0
       = ({| response := Returned (Error e); handler_calls := [] |}, 0)
    /\ kind e = ValidationError
    /\ paths e = ["path"].
Proof.
  set (srv := {| config := @GitToolsMcpServer.super_config repo_env
                             GitToolsMcpServer.empty_config |}).
  destruct (@missing_required_field_rejected repo_env srv "get_git_log"
              (createTool getLogTool getLog_handler)
              {[ "maxCount" := Num 2 ]} repository_path_field 0)
    as (e & Hinvoke & Hkind & Hpath).
  - reflexivity.
  - apply list_elem_of_here.
  - reflexivity.
  - reflexivity.
  - exists srv, e. split; [apply new_ok|].
    split; [exact Hinvoke|]. split; [exact Hkind|].
    vm_compute in Hinvoke. injection Hinvoke as <-. reflexivity.
Defined.

End Policy.

(** ** The allow-list and the advertised order *)
Module AllowList.
Import Js Async Tool GitTools McpServer GitToolsMcpServer Fixtures.
Import RegistryFacts ConstructorFacts.

(** C8. For every mode and every allow-list the server is constructed,
    and the capabilities it advertises are the base list [gitTools] in
    its declaration order with the capabilities the policy hides removed:
    a subsequence of the base list. The outcome is a function of the
    configuration. *)
Theorem registry_order_preserving `{E : Env} (config : GitToolsMcpServerConfig) :
  exists srv,
    new config = inr srv
    /\ visible srv = filter (fun cap => spec_isVisible config cap) gitTools
    /\ ListCapabilities srv
       = map definition (filter (fun cap => spec_isVisible config cap) gitTools)
    /\ ListCapabilities srv `sublist_of` map definition gitTools
    /\ forall srv', new config = inr srv' -> ListCapabilities srv' = ListCapabilities srv.
Proof.
  exists {| McpServer.config := super_config config |}.
  split; [apply new_ok|]. split; [apply visible_policy|].
  unfold ListCapabilities, registry_list. rewrite visible_policy.
  split; [reflexivity|]. split.
  - change (map ?f ?l) with (f <$> l). apply fmap_sublist, sublist_filter.
  - intros srv'. rewrite new_ok. intros [= <-]. by rewrite visible_policy.
Qed.

(** The advertised order is the declaration order, not the order of the
    allow-list. *)
Lemma registry_order_preserving_witness :
  exists srv,
    @new repo_env {| toolsetConfig := Some {| mode := all |};
                     dynamicToolDiscovery := None;
                     availableTools := Some ["get_git_config"; "get_current_branch"] |}
    = inr srv
    /\ map Tool.name (ListCapabilities srv) = ["get_current_branch"; "get_git_config"].
Proof.
  destruct (@registry_order_preserving repo_env
              {| toolsetConfig := Some {| mode := all |};
                 dynamicToolDiscovery := None;
                 availableTools := Some ["get_git_config"; "get_current_branch"] |})
    as (srv & Hnew & _ & Hlist & _).
  exists srv. split; [exact Hnew|]. rewrite Hlist. reflexivity.
Defined.

(** C3. Construction never fails, whatever names the allow-list holds,
    and the registered tools are a subsequence of the base list. With a
    non-empty allow-list, every listed capability has its name in the
    list, and a name outside the list does not resolve: invoking it fails
    with [NotFound]. With an absent or empty allow-list the whole base
    list is registered and the mode alone decides visibility. A name of
    the allow-list that no base capability bears changes nothing: the
    same tools are registered as without it. *)
Theorem allow_list_restricts `{E : Env} (config : GitToolsMcpServerConfig) :
  exists srv,
    new config = inr srv
    /\ registered_tools config `sublist_of` gitTools
    /\ (forall allowed,
           availableTools config = Some allowed -> allowed <> [] ->
           (forall d, d ∈ ListCapabilities srv -> Tool.name d ∈ allowed)
           /\ (forall n args w,
                  n ∉ allowed ->
                  resolve srv n = None
                  /\ InvokeCapability srv n args w = (not_found n, w)))
    /\ (availableTools config = None \/ availableTools config = Some [] ->
        registered_tools config = gitTools
        /\ visible srv
           = filter (fun cap =>
                       isVisible cap (default {| mode := readOnly |}
                                              (toolsetConfig config)))
                    gitTools)
    /\ (forall before after n,
           availableTools config = Some (before ++ n :: after)%list ->
           (before ++ after)%list <> [] ->
           n ∉ tool_names gitTools ->
           registered_tools config
           = registered_tools
               {| toolsetConfig := toolsetConfig config;
                  dynamicToolDiscovery := dynamicToolDiscovery config;
                  availableTools := Some (before ++ after)%list |}).
Proof.
  exists {| McpServer.config := super_config config |}.
  split; [apply new_ok|]. split; [apply registered_sublist|].
  split; [|split].
  - intros allowed Hav Hne.
    assert (Hvis : forall cap,
               (cap ∈ visible {| McpServer.config := super_config config |}) ->
               Tool.name (definition cap) ∈ allowed).
    { intros cap Hcap. apply visible_spec in Hcap as [_ Hin].
      cbn [McpServer.config tools super_config] in Hin.
      rewrite (registered_allowed config allowed Hav Hne) in Hin.
      apply list_elem_of_filter in Hin as [Hinc _].
      by apply includes_spec. }
    split.
    + intros d Hd. apply listed_visible in Hd as (cap & Hcap & ->). auto.
    + intros n args w Hn.
      assert (Hres : resolve {| McpServer.config := super_config config |} n = None).
      { apply resolve_None. intros cap Hcap <-. apply Hn. auto. }
      split; [exact Hres | by apply invoke_unresolved].
  - intros Hav. split; [by apply registered_unrestricted|].
    unfold visible. cbn [McpServer.config tools super_config McpServer.toolsetConfig].
    by rewrite registered_unrestricted.
  - intros before after n Hav Hne Hn.
    rewrite (registered_allowed config _ Hav)
      by (destruct before; discriminate).
    rewrite (registered_allowed _ (before ++ after)%list) by (auto; exact Hne).
    apply filter_iff_in. intros cap Hcap.
    rewrite !includes_spec, !elem_of_app, elem_of_cons.
    split; [|tauto]. intros [?|[Heq|?]]; auto.
    exfalso. apply Hn. rewrite <- Heq.
    unfold tool_names. change (map ?f ?l) with (f <$> l).
    apply list_elem_of_fmap. exists cap. split; [reflexivity | exact Hcap].
Qed.

(** An allow-list naming one tool and one name that no tool bears. *)
Lemma allow_list_restricts_witness :
  exists srv,
    @new repo_env {| toolsetConfig := None; dynamicToolDiscovery := None;
                     availableTools := Some ["no_such_tool"; "get_git_log"] |}
    = inr srv
    /\ map Tool.name (ListCapabilities srv) = ["get_git_log"]
    /\ fst (InvokeCapability srv "get_git_status" {[ "path" := Str "/work/repo" ]} 0)
       = not_found "get_git_status"
    /\ @registered_tools repo_env
         {| toolsetConfig := None; dynamicToolDiscovery := None;
            availableTools := Some ["no_such_tool"; "get_git_log"] |}
       = @registered_tools repo_env
           {| toolsetConfig := None; dynamicToolDiscovery := None;
              availableTools := Some ["get_git_log"] |}.
Proof.
  destruct (@allow_list_restricts repo_env
              {| toolsetConfig := None; dynamicToolDiscovery := None;
                 availableTools := Some ["no_such_tool"; "get_git_log"] |})
    as (srv & Hnew & _ & Hallow & _ & Hignored).
  destruct (Hallow ["no_such_tool"; "get_git_log"] eq_refl ltac:(discriminate))
    as [_ Hout].
  destruct (Hout "get_git_status" {[ "path" := Str "/work/repo" ]} 0) as [_ Hinv].
  { compute_done. }
  exists srv. split; [exact Hnew|].
  rewrite new_ok in Hnew. injection Hnew as <-.
  split; [reflexivity|]. split; [by rewrite Hinv|].
  apply (Hignored [] ["get_git_log"] "no_such_tool");
    [reflexivity | discriminate | rewrite gitTools_names; compute_done].
Defined.

End AllowList.

(** ** The SSE entry point *)
Module SseFacts.
Import Sse.

Lemma run_snoc (requests : list Request) (r : Request) :
  run (requests ++ [r]) = step (run requests) r.
Proof. unfold run. by rewrite fold_left_app. Qed.

(** The variable [transport] always holds the transport of the session
    opened last. *)
Lemma transport_latest (requests : list Request) :
  transport (run requests)
  = (fun c => {| endpoint := "/messages"; res := c |}) <$> last (opened requests).
Proof.
  induction requests as [|r requests IH] using rev_ind; [reflexivity|].
  rewrite run_snoc. unfold opened in *. rewrite omap_app.
  destruct r as [c|req]; simpl.
  - by rewrite last_snoc.
  - rewrite app_nil_r. unfold post_messages. rewrite <- IH.
    destruct (transport (run requests)) eqn:Ht; simpl; [reflexivity | exact Ht].
Qed.

(** C1. What the entry point does with two sessions: after [GET /sse] on
    connection 1 and then on connection 2, a message posted by session 1
    is handed to the transport of connection 2, the only one that is
    still addressable. In general a posted message goes to the transport
    of the session opened last, whatever session sent it. *)
Theorem sse_post_reaches_latest_transport :
  handled (run [ GetSse 1; GetSse 2;
                 PostMessages {| sessionId := 1; body := "tools/call" |} ])
  = [ ({| endpoint := "/messages"; res := 2 |},
       {| sessionId := 1; body := "tools/call" |}) ]
  /\ forall requests req,
      handled (step (run requests) (PostMessages req))
      = (handled (run requests)
           ++ match last (opened requests) with
              | Some latest => [({| endpoint := "/messages"; res := latest |}, req)]
              | None => []
              end)%list.
Proof.
  split; [reflexivity|].
  intros requests req. simpl. unfold post_messages.
  rewrite transport_latest.
  destruct (last (opened requests)); simpl; [reflexivity | by rewrite app_nil_r].
Qed.

End SseFacts.

(** ** Sanity checks on concrete inputs *)
Module Examples.
Import Js NodePath Async Tool GitTools Walk McpServer GitToolsMcpServer Fixtures.
Import ConstructorFacts.

Example trim_branch_output : trim ("main" +:+ nl) = "main".
Proof. reflexivity. Qed.

Example trim_both_ends : trim ("  feature/x " +:+ nl) = "feature/x".
Proof. reflexivity. Qed.

(** The no-break space is trimmed at the ends and kept inside. *)
Example trim_no_break_space :
  trim (nbsp +:+ "found" +:+ nbsp +:+ nl) = "found"
  /\ trim (nbsp +:+ " a" +:+ nbsp +:+ "b " +:+ nbsp) = "a" +:+ nbsp +:+ "b".
Proof. split; reflexivity. Qed.

(** A byte of a white-space character on its own is not white space. *)
Example trim_lone_byte :
  trim (String (ascii_of_nat 160) "found") = String (ascii_of_nat 160) "found".
Proof. reflexivity. Qed.

(** Counts beyond the integers a double holds exactly. *)
Example number_to_string_large :
  map number_to_string
      [2; -5; 9007199254740993; 123456789012345678901; 999999999999999999999;
       1000000000000000000000; -1000000000000000000000; 2 ^ 70; 2 ^ 1024]%Z
  = ["2"; "-5"; "9007199254740992"; "123456789012345680000";
     "1e+21"; "1e+21"; "-1e+21"; "1.1805916207174113e+21"; "Infinity"].
Proof. vm_compute. reflexivity. Qed.

Example countArg_large :
  countArg (Num (10 ^ 21)) = "-n 1e+21".
Proof. vm_compute. reflexivity. Qed.

(** A probe whose output has a no-break space before [found] counts as
    found. *)
Example probe_output_no_break_space :
  Stable.answers_found (ok (nbsp +:+ "found" +:+ nl)) = true.
Proof. reflexivity. Qed.

Example dirname_examples :
  map dirname ["/a/b/c"; "/a"; "/"; ""; "."; "a"; "//a"; "//"; "a/b"; "/a/b/"]
  = ["/a/b"; "/"; "/"; "."; "."; "."; "//"; "/"; "a"; "/a"].
Proof. reflexivity. Qed.

Example resolve_relative : NodePath.resolve "/home/u" "proj/../x/./y//z/" = "/home/u/x/y/z".
Proof. reflexivity. Qed.

Example resolve_above_root : NodePath.resolve "/home/u" "/abs/../.." = "/".
Proof. reflexivity. Qed.

Example join_git_dir : join "/a/b" ".git" = "/a/b/.git" /\ join "/" ".git" = "/.git".
Proof. split; reflexivity. Qed.

Example stringify_paths :
  JSON_stringify ["/a/b"; "/a"] = "[" +:+ dq +:+ "/a/b" +:+ dq +:+ "," +:+ dq +:+ "/a" +:+ dq +:+ "]".
Proof. reflexivity. Qed.

Example log_command_with_count :
  log_command (Str "/r") (Num 2)
  = "git -C " +:+ dq +:+ "/r" +:+ dq +:+ " log -n 2 --pretty=oneline".
Proof. reflexivity. Qed.

Example log_command_without_count :
  log_command (Str "/r") Undefined
  = "git -C " +:+ dq +:+ "/r" +:+ dq +:+ " log  --pretty=oneline".
Proof. reflexivity. Qed.

(** Every probe rejects, and the handler still answers the empty list. *)
Example all_probes_fail :
  @getGitRepos_handler failing_env {[ "path" := Str "/a/b" ]} 0
  = (Returned (text_result "[]"), 3).
Proof. vm_compute. reflexivity. Qed.

(** The walk asks the shell twice per directory when the first run
    resolves, once when it rejects. *)
Example probes_counted :
  snd (@getGitRepos_handler repo_env {[ "path" := Str "/work/repo" ]} 0) = 5.
Proof. vm_compute. reflexivity. Qed.

Example default_server_lists_all :
  exists srv,
    @new repo_env empty_config = inr srv
    /\ map Tool.name (ListCapabilities srv)
       = [ "get_git_repos_from_path"; "get_current_branch"; "get_git_status";
           "get_git_log"; "get_git_remotes"; "get_git_config" ].
Proof. eexists. split; [apply new_ok | reflexivity]. Qed.

End Examples.

(** ** The handlers that run one git command *)
Module SingleCommand.
Import Js NodePath Async Tool GitTools TestHarness Git Fixtures JsFacts.

(** A line feed after a text changes nothing in what [trimStart] removes
    from its start. *)
Lemma trimStart_newline (s : string) :
  trimStart (s +:+ nl)
  = if trimStart s =? "" then "" else trimStart s +:+ nl.
Proof.
  induction s as [|a rest Ha Heq IH|a d rest Ha Had Heq IH
                  |a d e rest Ha Had Hade Heq IH|a rest Ha Htwo Hthree Heq]
    using trimStart_steps; rewrite ?Heq.
  - reflexivity.
  - change (String a rest +:+ nl) with (String a (rest +:+ nl)).
    rewrite trimStart_eq, Ha. exact IH.
  - change (String a (String d rest) +:+ nl)
      with (String a (String d (rest +:+ nl))).
    rewrite trimStart_eq, Ha, Had. exact IH.
  - change (String a (String d (String e rest)) +:+ nl)
      with (String a (String d (String e (rest +:+ nl)))).
    rewrite trimStart_eq, Ha, Had, Hade. exact IH.
  - change (String a rest =? "") with false. cbv iota.
    destruct rest as [|d [|e rest3]].
    + change (String a "" +:+ nl) with (String a (String lf_char "")).
      by rewrite trimStart_eq, Ha, is_whitespace2_nl.
    + change (String a (String d "") +:+ nl)
        with (String a (String d (String lf_char ""))).
      by rewrite trimStart_eq, Ha, (Htwo d "" eq_refl), is_whitespace3_nl.
    + change (String a (String d (String e rest3)) +:+ nl)
        with (String a (String d (String e (rest3 +:+ nl)))).
      by rewrite trimStart_eq, Ha, (Htwo d _ eq_refl), (Hthree d e _ eq_refl).
Qed.

(** [trimEnd] removes the line feed after a text it leaves alone. *)
Lemma trimEnd_newline (s : string) :
  trimEnd s = s -> trimEnd (s +:+ nl) = s.
Proof.
  induction s as [|c rest IH]; [reflexivity|].
  rewrite trimEnd_eq.
  change (String c rest +:+ nl) with (String c (rest +:+ nl)).
  rewrite trimEnd_eq.
  change (String c (rest +:+ nl)) with (String c rest +:+ nl) at 1.
  rewrite trimStart_newline.
  destruct (String.eqb_spec (trimStart (String c rest)) "") as [|Hkept];
    [discriminate|].
  intros [= Hrest].
  destruct (trimStart (String c rest)) as [|x kept]; [done|].
  change (String x kept +:+ nl =? "") with false. cbv iota.
  by rewrite IH.
Qed.

(** Trimming removes the line feed that ends a line of output, and nothing
    else, when the line itself has no white space at its ends. *)
Lemma trim_newline (s : string) : trim s = s -> trim (s +:+ nl) = s.
Proof.
  intros Heq. apply trim_fixed in Heq as [Hstart Hend]. unfold trim.
  rewrite trimStart_newline, Hstart.
  destruct s as [|c rest]; [reflexivity|].
  change (String c rest =? "") with false. cbv iota.
  by apply trimEnd_newline.
Qed.

(** X2. Whatever branch name git prints, followed by a newline, the handler of
    [get_current_branch] answers with that name alone, provided the name
    neither starts nor ends with a character of white space, of one byte or
    of several. *)
Theorem get_current_branch_any `{E : Env}
        (args : Args) (p branch : string) (w : World) :
  prop args "path" = Str p ->
  git_on_branch p branch ->
  starts_with_whitespace branch = false ->
  ends_with_whitespace branch = false ->
  fst (getCurrentBranch_handler args w) = Returned (text_result branch).
Proof.
  intros Hpath Hgit Hstart Hend.
  unfold getCurrentBranch_handler, bind, exec, ret. rewrite Hpath.
  specialize (Hgit w). simpl to_string. unfold git_command.
  destruct (execAsync _ w) as [r w1]. simpl in Hgit. subst r. simpl.
  by rewrite trim_newline by (by apply trim_kept).
Qed.

(** In [padded_env] the branch name has a no-break space inside, none at
    its ends: the handler returns the name as it is. *)
Lemma get_current_branch_any_witness :
  fst (@getCurrentBranch_handler padded_env {[ "path" := Str "/work/repo" ]} 0)
  = Returned (text_result ("wip" +:+ nbsp +:+ "x")).
Proof.
  apply (@get_current_branch_any padded_env _ "/work/repo"
           ("wip" +:+ nbsp +:+ "x") 0).
  - reflexivity.
  - intros w. reflexivity.
  - reflexivity.
  - reflexivity.
Defined.

(** X1. A handler that runs one git command passes a rejection of the command
    on: it throws the same error, after that one command and nothing else.
    This holds for the five handlers other than the ancestor walk. *)
Theorem git_handlers_propagate_rejection `{E : Env}
        (args : Args) (w w1 : World) (e : string) (rest : string) :
  execAsync (git_command (to_string (prop args "path")) rest) w = (Rejected e, w1) ->
  (rest = "rev-parse --abbrev-ref HEAD" -> getCurrentBranch_handler args w = (Threw e, w1))
  /\ (rest = "status --porcelain=v1 --branch" -> getStatus_handler args w = (Threw e, w1))
  /\ (rest = "log " +:+ countArg (prop args "maxCount") +:+ " --pretty=oneline" ->
      getLog_handler args w = (Threw e, w1))
  /\ (rest = "remote -v" -> getRemotes_handler args w = (Threw e, w1))
  /\ (rest = "config --list" -> getConfig_handler args w = (Threw e, w1)).
Proof.
  intros Hrun. repeat split; intros ->;
    unfold getCurrentBranch_handler, getStatus_handler, getLog_handler,
      getRemotes_handler, getConfig_handler, log_command, bind, exec;
    rewrite Hrun; reflexivity.
Qed.

(** In [failing_env] every command is rejected. *)
Lemma git_handlers_propagate_rejection_witness :
  @getStatus_handler failing_env {[ "path" := Str "/nowhere" ]} 0
  = (Threw "command failed", 1).
Proof.
  destruct (@git_handlers_propagate_rejection failing_env
              {[ "path" := Str "/nowhere" ]} 0 1 "command failed"
              "status --porcelain=v1 --branch") as (_ & Hstatus & _).
  - reflexivity.
  - apply Hstatus. reflexivity.
Defined.

End SingleCommand.

(** ** More on the ancestor walk *)
Module WalkMore.
Import Js NodePath Async Tool GitTools Walk Stable Counting Fixtures.
Import JsFacts PathFacts WalkFacts.

Section Listing.
Context `{E : Env}.

Lemma repositories_sublist (dirs : list string) (w : World) :
  repositories (fst (survey dirs w)) `sublist_of` dirs.
Proof.
  rewrite <- (survey_dirs dirs w) at 2. unfold repositories.
  change (map ?f ?l) with (f <$> l). apply fmap_sublist, sublist_filter.
Qed.

Lemma repositories_cons (d : string) (o : ProbeOutcome)
      (rest : list (string * ProbeOutcome)) :
  repositories ((d, o) :: rest)
  = if decide (o = ProbeFound) then d :: repositories rest else repositories rest.
Proof.
  unfold repositories. rewrite filter_cons. simpl.
  destruct (decide (o = ProbeFound)); reflexivity.
Qed.

Lemma probe_stable (oracle : string -> ExecResult) (d : string) (w : World) :
  stable oracle ->
  fst (probe d w) = ProbeFound
  <-> Is_true (answers_found (oracle (probe_command (join d ".git")))).
Proof.
  intros Hst. unfold probe.
  pose proof (Hst (probe_command (join d ".git")) w) as H1.
  destruct (execAsync _ w) as [r1 w1]. simpl in H1. subst r1.
  destruct (oracle (probe_command (join d ".git"))) as [out|e] eqn:Hor; simpl.
  - pose proof (Hst (probe_command (join d ".git")) w1) as H2.
    destruct (execAsync _ w1) as [r2 w2]. simpl in H2. rewrite Hor in H2. subst r2.
    simpl. destruct (trim (stdout out) =? "found"); simpl; split; try done.
  - split; [discriminate | intros []].
Qed.

(** In a stable environment the directories found are those whose probe
    command prints [found]. *)
Lemma survey_stable (oracle : string -> ExecResult) (dirs : list string) (w : World) :
  stable oracle ->
  repositories (fst (survey dirs w))
  = filter (fun d => answers_found (oracle (probe_command (join d ".git")))) dirs.
Proof.
  intros Hst. revert w. induction dirs as [|d ds IH]; intros w; [reflexivity|].
  cbn [survey].
  pose proof (probe_stable oracle d w Hst) as Hp.
  destruct (probe d w) as [o w1]. simpl in Hp.
  specialize (IH w1). destruct (survey ds w1) as [rest w2]. simpl in *.
  rewrite repositories_cons, filter_cons, IH.
  repeat case_decide; tauto.
Qed.
End Listing.

(** X3. In an environment that answers each command line the same way in
    every world, the handler of [get_git_repos_from_path] lists exactly the
    ancestors of the resolved path whose probe command prints [found],
    white space of any width around it apart, in the order of the walk. *)
Theorem get_git_repos_stable `{E : Env}
        (oracle : string -> ExecResult) (args : Args) (path : string) (w : World) :
  stable oracle ->
  prop args "path" = Str path ->
  fst (getGitRepos_handler args w)
  = Returned
      (text_result
         (JSON_stringify
            (filter (fun d => answers_found (oracle (probe_command (join d ".git"))))
                    (ancestors (NodePath.resolve cwd path))))).
Proof.
  intros Hst Hpath. rewrite (handler_walk args path w Hpath). simpl.
  by rewrite (survey_stable oracle).
Qed.

(** In [padded_env] the probe of [/work/repo] prints [found] between
    no-break spaces, which trimming removes: the directory is listed. *)
Lemma get_git_repos_stable_witness :
  fst (@getGitRepos_handler padded_env {[ "path" := Str "repo/src/lib" ]} 0)
  = Returned (text_result ("[" +:+ dq +:+ "/work/repo" +:+ dq +:+ "]")).
Proof.
  rewrite (@get_git_repos_stable padded_env
             (fun cmd => fst (@execAsync padded_env cmd 0))
             {[ "path" := Str "repo/src/lib" ]} "repo/src/lib" 0).
  - vm_compute. reflexivity.
  - intros cmd w. reflexivity.
  - reflexivity.
Defined.

(** X4. In every world the directories the handler lists form a subsequence
    of the ancestor chain of the resolved path: they are listed from the
    deepest to the one nearest the root, and none is listed twice. *)
Theorem get_git_repos_listing_order `{E : Env}
        (args : Args) (path : string) (w : World) :
  prop args "path" = Str path ->
  exists found,
    fst (getGitRepos_handler args w) = Returned (text_result (JSON_stringify found))
    /\ found `sublist_of` ancestors (NodePath.resolve cwd path)
    /\ NoDup found.
Proof.
  intros Hpath. eexists. split; [|split].
  - rewrite (handler_walk args path w Hpath). reflexivity.
  - apply repositories_sublist.
  - eapply sublist_NoDup; [apply chain_NoDup | apply repositories_sublist].
Qed.

Lemma get_git_repos_listing_order_witness :
  exists found,
    fst (@getGitRepos_handler repo_env {[ "path" := Str "repo/src" ]} 0)
    = Returned (text_result (JSON_stringify found))
    /\ found `sublist_of` ["/work/repo/src"; "/work/repo"; "/work"; "/"].
Proof.
  assert (Hp : @prop ({[ "path" := Str "repo/src" ]}) "path" = Str "repo/src")
    by reflexivity.
  destruct (@get_git_repos_listing_order repo_env _ "repo/src" 0 Hp)
    as (found & Hrun & Hsub & _).
  exists found. split; [exact Hrun | exact Hsub].
Defined.

Section Commands.
Context (E : Env).

Lemma probe_counted (d : string) (w : @World E) (n : nat) :
  exists k,
    snd (snd (@probe (counted E) d (w, n))) = n + k
    /\ 1 <= k <= 2
    /\ (@never_rejects E -> k = 2).
Proof.
  unfold probe. simpl.
  destruct (@execAsync E _ w) as [[out1|e1] w1] eqn:H1; simpl.
  - destruct (@execAsync E _ w1) as [[out2|e2] w2] eqn:H2; simpl;
      exists 2; (split; [lia|]); (split; [lia | reflexivity]).
  - exists 1. split; [lia|]. split; [lia|]. intros Hnr.
    destruct (Hnr (probe_command (join d ".git")) w) as (out & w' & Hok). congruence.
Qed.

Lemma survey_counted (dirs : list string) (w : @World E) (n : nat) :
  exists k,
    snd (snd (@survey (counted E) dirs (w, n))) = n + k
    /\ length dirs <= k <= 2 * length dirs
    /\ (@never_rejects E -> k = 2 * length dirs).
Proof.
  revert w n. induction dirs as [|d ds IH]; intros w n.
  - exists 0. simpl. split; [lia|]. split; [lia | reflexivity].
  - cbn [survey].
    destruct (probe_counted d w n) as (k1 & Hk1 & Hb1 & He1).
    destruct (@probe (counted E) d (w, n)) as [o [w1 n1]]. simpl in Hk1. subst n1.
    destruct (IH w1 (n + k1)) as (k2 & Hk2 & Hb2 & He2).
    destruct (@survey (counted E) ds (w1, n + k1)) as [rest [w2 n2]].
    simpl in *. subst n2. exists (k1 + k2). split; [lia|]. split; [lia|].
    intros Hnr. specialize (He1 Hnr). specialize (He2 Hnr). lia.
Qed.
End Commands.

(** X5. The handler of [get_git_repos_from_path] asks the shell at least once
    and at most twice for each ancestor of the resolved path, whatever the
    commands answer; where no command is ever rejected it asks exactly
    twice for each. *)
Theorem get_git_repos_command_count (E : Env)
        (args : Args) (path : string) (w : @World E) (n : nat) :
  prop args "path" = Str path ->
  let dirs := ancestors (NodePath.resolve (@cwd E) path) in
  exists k,
    snd (snd (@getGitRepos_handler (counted E) args (w, n))) = n + k
    /\ length dirs <= k <= 2 * length dirs
    /\ (@never_rejects E -> k = 2 * length dirs).
Proof.
  intros Hpath dirs.
  rewrite (@handler_walk (counted E) args path (w, n) Hpath). simpl snd at 1.
  apply survey_counted.
Qed.

(** From [repo/src] in [repo_env]: four ancestors; the probes of two of
    them are rejected at their first run, the other two run twice. *)
Lemma get_git_repos_command_count_witness :
  snd (snd (@getGitRepos_handler (counted repo_env)
              {[ "path" := Str "repo/src" ]} (0, 0))) = 6
  /\ length (ancestors (NodePath.resolve (@cwd repo_env) "repo/src")) = 4.
Proof.
  assert (Hp : @prop ({[ "path" := Str "repo/src" ]}) "path" = Str "repo/src")
    by reflexivity.
  destruct (get_git_repos_command_count repo_env _ "repo/src" 0 0 Hp)
    as (k & Hk & _).
  split; vm_compute; reflexivity.
Defined.

End WalkMore.

(** ** Facts about normalized absolute paths *)
Module NormalFormFacts.
Import Js NodePath GitTools Walk NormalForm JsFacts PathFacts WalkFacts.

Lemma append_cons (c : ascii) (a b : string) :
  String c a +:+ b = String c (a +:+ b).
Proof. reflexivity. Qed.

Lemma append_empty_l (b : string) : "" +:+ b = b.
Proof. reflexivity. Qed.

Lemma append_assoc (a b c : string) : (a +:+ b) +:+ c = a +:+ (b +:+ c).
Proof.
  induction a as [|x a IH]; [reflexivity|]. rewrite !append_cons. congruence.
Qed.

Lemma append_empty_r (a : string) : a +:+ "" = a.
Proof.
  induction a as [|x a IH]; [reflexivity|]. rewrite append_cons. congruence.
Qed.

Lemma length_append (a b : string) :
  String.length (a +:+ b) = String.length a + String.length b.
Proof.
  induction a as [|x a IH]; [reflexivity|]. rewrite append_cons. simpl. congruence.
Qed.

Lemma list_ascii_append (a b : string) :
  list_ascii_of_string (a +:+ b)
  = (list_ascii_of_string a ++ list_ascii_of_string b)%list.
Proof.
  induction a as [|x a IH]; [reflexivity|]. rewrite append_cons. simpl. congruence.
Qed.

Lemma substring_0_append (a b : string) :
  substring 0 (String.length a) (a +:+ b) = a.
Proof.
  induction a as [|x a IH]; [by destruct b|]. rewrite append_cons. simpl. congruence.
Qed.

Lemma concat_snoc (sep : string) (segs : list string) (x : string) :
  segs <> [] ->
  String.concat sep (segs ++ [x]) = String.concat sep segs +:+ sep +:+ x.
Proof.
  induction segs as [|s segs IH]; [congruence|]. intros _.
  destruct segs as [|s' segs]; [reflexivity|].
  change (String.concat sep ((s :: s' :: segs) ++ [x]))
    with (s +:+ sep +:+ String.concat sep ((s' :: segs) ++ [x])).
  rewrite IH by discriminate.
  change (String.concat sep (s :: s' :: segs))
    with (s +:+ sep +:+ String.concat sep (s' :: segs)).
  by rewrite !append_assoc.
Qed.

Lemma has_slash_chars (s : string) :
  has_slash s = false <->
  (forall c, In c (list_ascii_of_string s) -> is_slash c = false).
Proof.
  induction s as [|a s IH]; simpl.
  - split; [intros _ c [] | reflexivity].
  - rewrite orb_false_iff, IH. split.
    + intros [Ha Hs] c [<-|Hc]; auto.
    + intros H. split; [apply H; auto | intros c Hc; apply H; auto].
Qed.

Lemma clean_segment_spec (s : string) :
  clean_segment s = true
  <-> s <> "" /\ has_slash s = false /\ s <> "." /\ s <> "..".
Proof.
  unfold clean_segment.
  rewrite !andb_true_iff, !negb_true_iff, !String.eqb_neq. tauto.
Qed.

(** The render of a list with a last segment, split at that segment. *)
Lemma render_snoc (segs : list string) (x : string) :
  render (segs ++ [x])
  = match segs with
    | [] => "/" +:+ x
    | _ => render segs +:+ "/" +:+ x
    end.
Proof.
  unfold render. destruct segs as [|s segs]; [reflexivity|].
  rewrite concat_snoc by discriminate. by rewrite !append_assoc.
Qed.

Lemma render_length_snoc (segs : list string) (x : string) :
  x <> "" -> String.length (render segs) < String.length (render (segs ++ [x])).
Proof.
  intros Hx. rewrite render_snoc.
  assert (0 < String.length x) by (destruct x; [congruence | simpl; lia]).
  destruct segs as [|s segs].
  - unfold render. rewrite !length_append. simpl. lia.
  - rewrite !length_append. simpl. lia.
Qed.

(** *** [dirname] on a normalized path *)

Lemma dirname_scan_no_slash (chars below : list ascii) (i : nat) (m : bool) :
  (forall c, In c chars -> is_slash c = false) ->
  dirname_scan (chars ++ below) i m
  = dirname_scan below (i - length chars)
                 (match chars with [] => m | _ => false end).
Proof.
  revert i m. induction chars as [|c chars IH]; intros i m Hns; simpl.
  - by rewrite Nat.sub_0_r.
  - rewrite (Hns c) by (simpl; auto).
    rewrite IH by (intros c' Hc'; apply Hns; simpl; auto).
    replace (pred i - length chars) with (i - S (length chars)) by lia.
    by destruct chars.
Qed.

Lemma dirname_render_snoc (segs : list string) (x : string) :
  Forall (fun s => clean_segment s = true) segs ->
  clean_segment x = true ->
  dirname (render (segs ++ [x])) = render segs.
Proof.
  intros Hsegs Hx. apply clean_segment_spec in Hx as (Hne & Hns & _ & _).
  pose proof (proj1 (has_slash_chars x) Hns) as Hchars.
  assert (Hrev : forall c, In c (rev (list_ascii_of_string x)) -> is_slash c = false)
    by (intros c Hc; apply Hchars, in_rev, Hc).
  rewrite render_snoc. destruct segs as [|s segs].
  - change ("/" +:+ x) with (String "/" x). unfold dirname.
    rewrite <- (app_nil_r (rev (list_ascii_of_string x))).
    rewrite dirname_scan_no_slash by exact Hrev. reflexivity.
  - set (P := String.concat "/" (s :: segs)).
    change (render (s :: segs)) with (String "/" P).
    change (String "/" P +:+ "/" +:+ x) with (String "/" (P +:+ "/" +:+ x)).
    unfold dirname.
    rewrite !list_ascii_append, !rev_app_distr. simpl rev at 2.
    rewrite <- !app_assoc.
    rewrite dirname_scan_no_slash by exact Hrev.
    assert (Hx0 : rev (list_ascii_of_string x) <> []).
    { destruct x as [|a x]; [congruence|]. simpl.
      intros Heq. apply app_eq_nil in Heq as [_ Heq]. discriminate Heq. }
    destruct (rev (list_ascii_of_string x)) as [|a l] eqn:Hl; [congruence|].
    rewrite <- Hl. rewrite length_rev, length_list_ascii.
    change (dirname_scan ((["/"%char] ++ rev (list_ascii_of_string P))) ?i false)
      with (Some i).
    rewrite !length_append. simpl String.length.
    replace (String.length P + (1 + String.length x) - String.length x)
      with (S (String.length P)) by lia.
    assert (HP : 0 < String.length P).
    { inversion Hsegs as [|? ? Hs _]; subst.
      apply clean_segment_spec in Hs as (Hs & _).
      unfold P. destruct segs; cbn [String.concat]; [|rewrite length_append];
        (destruct s; [congruence | simpl; lia]). }
    replace (is_slash "/" && (S (String.length P) =? 1)%nat) with false
      by (destruct (String.length P); [lia | reflexivity]).
    change (substring 0 (S (String.length P)) (String "/" (P +:+ "/" +:+ x)))
      with (String "/" (substring 0 (String.length P) (P +:+ "/" +:+ x))).
    by rewrite substring_0_append.
Qed.

Lemma chain_fuel_irrelevant (f1 f2 : nat) (s : string) :
  path_measure s < f1 -> path_measure s < f2 -> chain f1 s = chain f2 s.
Proof.
  revert f2 s. induction f1 as [|f1 IH]; intros f2 s H1 H2; [lia|].
  destruct f2 as [|f2]; [lia|]. simpl.
  destruct (String.eqb_spec (dirname s) s) as [|Hne]; [reflexivity|].
  f_equal. apply dirname_decreases in Hne. apply IH; lia.
Qed.

Lemma lineage_snoc (segs : list string) (x : string) :
  lineage (segs ++ [x]) = render (segs ++ [x]) :: lineage segs.
Proof.
  unfold lineage. rewrite rev_unit. simpl. by rewrite rev_involutive.
Qed.

(** The ancestor chain of a normalized path: the path itself, then the
    paths of its shorter and shorter prefixes, down to the root. *)
Lemma ancestors_render (segs : list string) :
  Forall (fun s => clean_segment s = true) segs ->
  ancestors (render segs) = lineage segs.
Proof.
  induction segs as [|x segs IH] using rev_ind; intros Hclean; [reflexivity|].
  apply Forall_app in Hclean as [Hsegs Hx]. rewrite Forall_singleton in Hx.
  rewrite lineage_snoc, <- IH by exact Hsegs.
  pose proof (dirname_render_snoc segs x Hsegs Hx) as Hdir.
  assert (Hne : dirname (render (segs ++ [x])) <> render (segs ++ [x])).
  { rewrite Hdir. intros Heq.
    apply clean_segment_spec in Hx as (Hx & _).
    pose proof (render_length_snoc segs x Hx) as Hlen. rewrite Heq in Hlen. lia. }
  unfold ancestors at 1. unfold walk_budget.
  replace (2 * String.length (render (segs ++ [x])) + 4)
    with (S (2 * String.length (render (segs ++ [x])) + 3)) by lia.
  cbn [chain].
  destruct (String.eqb_spec (dirname (render (segs ++ [x]))) (render (segs ++ [x])))
    as [Heq|_]; [congruence|].
  f_equal. rewrite Hdir. apply chain_fuel_irrelevant.
  - apply dirname_decreases in Hne. rewrite Hdir in Hne.
    pose proof (path_measure_bounds (render (segs ++ [x])) ltac:(discriminate)). lia.
  - apply walk_budget_enough.
Qed.

Lemma lineage_length (segs : list string) : length (lineage segs) = S (length segs).
Proof.
  unfold lineage. rewrite length_map, <- (length_rev segs).
  induction (rev segs) as [|x l IH]; simpl; congruence.
Qed.

End NormalFormFacts.

(** ** [path.resolve] and [path.join] on normalized paths *)
Module ResolveFacts.
Import Js NodePath Async Tool GitTools Walk NormalForm Fixtures.
Import JsFacts PathFacts WalkFacts NormalFormFacts WalkMore.

Lemma split_slash_cons (s : string) : exists seg segs, split_slash s = seg :: segs.
Proof.
  induction s as [|c s (seg & segs & IH)]; simpl; [eauto|].
  destruct (is_slash c); [eauto|]. rewrite IH. eauto.
Qed.

Lemma split_slash_no_slash (s : string) :
  Forall (fun seg => has_slash seg = false) (split_slash s).
Proof.
  induction s as [|c s IH]; simpl; [by repeat constructor|].
  destruct (is_slash c) eqn:Hc; [by constructor|].
  destruct (split_slash s) as [|seg segs]; [by repeat constructor; simpl; rewrite Hc|].
  inversion IH; subst. constructor; [simpl; by rewrite Hc | done].
Qed.

Lemma split_slash_append (s1 s2 : string) :
  split_slash (s1 +:+ "/" +:+ s2) = (split_slash s1 ++ split_slash s2)%list.
Proof.
  induction s1 as [|c s1 IH]; [reflexivity|].
  rewrite append_cons. simpl. rewrite IH.
  destruct (is_slash c); [reflexivity|].
  destruct (split_slash_cons s1) as (seg & segs & ->). reflexivity.
Qed.

Lemma split_slash_segment (x : string) :
  has_slash x = false -> split_slash x = [x].
Proof.
  induction x as [|c x IH]; simpl; [reflexivity|].
  rewrite orb_false_iff. intros [-> Hx]. by rewrite IH.
Qed.

Lemma split_slash_concat (segs : list string) :
  Forall (fun seg => has_slash seg = false) segs -> segs <> [] ->
  split_slash (String.concat "/" segs) = segs.
Proof.
  induction segs as [|s segs IH]; [congruence|]. intros Hns _.
  inversion Hns as [|? ? Hs Hrest]; subst.
  destruct segs as [|s' segs]; [by apply split_slash_segment|].
  change (String.concat "/" (s :: s' :: segs))
    with (s +:+ "/" +:+ String.concat "/" (s' :: segs)).
  rewrite split_slash_append, IH by (auto; discriminate).
  by rewrite split_slash_segment.
Qed.

Lemma normalize_segments_app (b : bool) (acc l1 l2 : list string) :
  normalize_segments b acc (l1 ++ l2)
  = normalize_segments b (rev (normalize_segments b acc l1)) l2.
Proof.
  revert acc. induction l1 as [|seg l1 IH]; intros acc; simpl.
  - by rewrite rev_involutive.
  - destruct ((seg =? "") || (seg =? ".")); [apply IH|].
    destruct (seg =? ".."); [|apply IH].
    destruct acc as [|last acc']; [destruct b; apply IH|].
    destruct (last =? ".."); apply IH.
Qed.

(** Segments that are already clean pass through [normalizeString]. *)
Lemma normalize_segments_clean (b : bool) (acc l : list string) :
  clean l -> normalize_segments b acc l = (rev acc ++ l)%list.
Proof.
  revert acc. induction l as [|seg l IH]; intros acc Hl; simpl.
  - by rewrite app_nil_r.
  - inversion Hl as [|? ? Hseg Hrest]; subst.
    apply clean_segment_spec in Hseg as (H1 & _ & H2 & H3).
    apply String.eqb_neq in H1, H2, H3. rewrite H1, H2, H3. simpl.
    rewrite IH by exact Hrest. simpl. by rewrite <- app_assoc.
Qed.

(** Below the root, [normalizeString] only ever yields clean segments. *)
Lemma normalize_segments_yields_clean (acc l : list string) :
  Forall (fun seg => has_slash seg = false) l -> clean acc ->
  clean (normalize_segments false acc l).
Proof.
  revert acc. induction l as [|seg l IH]; intros acc Hl Hacc; simpl.
  - by apply Forall_rev.
  - inversion Hl as [|? ? Hseg Hrest]; subst.
    destruct (String.eqb_spec seg "") as [|H1]; [by apply IH|].
    destruct (String.eqb_spec seg ".") as [|H2]; [by apply IH|]. simpl.
    destruct (String.eqb_spec seg "..") as [|H3].
    + destruct acc as [|last acc']; [by apply IH|].
      inversion Hacc as [|? ? Hlast Hacc']; subst.
      apply clean_segment_spec in Hlast as (_ & _ & _ & Hlast).
      apply String.eqb_neq in Hlast. rewrite Hlast. by apply IH.
    + apply IH; [exact Hrest|]. constructor; [|exact Hacc].
      by apply clean_segment_spec.
Qed.

Lemma normalized_render (segs : list string) :
  clean segs -> normalize_segments false [] (split_slash (render segs)) = segs.
Proof.
  intros Hclean. unfold render.
  change ("/" +:+ String.concat "/" segs) with ("" +:+ "/" +:+ String.concat "/" segs).
  rewrite split_slash_append. change (split_slash "") with [""].
  destruct segs as [|s segs]; [reflexivity|].
  rewrite split_slash_concat; [|eapply Forall_impl; [exact Hclean|]|discriminate].
  - simpl app. change (normalize_segments false [] ("" :: s :: segs))
      with (normalize_segments false [] (s :: segs)).
    by rewrite normalize_segments_clean.
  - intros seg Hseg. by apply clean_segment_spec in Hseg as (_ & ? & _).
Qed.

(** With an absolute working directory or an absolute argument,
    [path.resolve] gives a normalized absolute path. *)
Lemma resolve_normal_form (cwd path : string) :
  isAbsolute cwd = true \/ isAbsolute path = true ->
  exists segs, NodePath.resolve cwd path = render segs /\ clean segs.
Proof.
  intros Habs.
  assert (Hyield : forall X,
             exists segs, "/" +:+ normalizeString X false = render segs /\ clean segs).
  { intros X. eexists. split; [reflexivity|].
    apply normalize_segments_yields_clean; [apply split_slash_no_slash | constructor]. }
  unfold NodePath.resolve. simpl fold_left.
  destruct path as [|c p]; simpl.
  - destruct Habs as [Hcwd|Hp]; [|discriminate Hp].
    destruct cwd as [|c0 cwd']; [discriminate|]. simpl in *. rewrite Hcwd. apply Hyield.
  - destruct (is_slash c) eqn:Hc; [apply Hyield|].
    destruct Habs as [Hcwd|Hp]; [|simpl in Hp; congruence].
    destruct cwd as [|c0 cwd']; [discriminate|]. simpl in *. rewrite Hcwd. apply Hyield.
Qed.

(** A normalized absolute path resolves to itself, whatever the working
    directory. *)
Lemma resolve_render (cwd : string) (segs : list string) :
  clean segs -> NodePath.resolve cwd (render segs) = render segs.
Proof.
  intros Hclean. unfold NodePath.resolve. simpl fold_left.
  change ("/" +:+ normalizeString (render segs +:+ "/" +:+ "") false = render segs).
  unfold normalizeString.
  rewrite split_slash_append, normalize_segments_app, normalized_render by exact Hclean.
  change (split_slash "") with [""]. simpl. by rewrite rev_involutive.
Qed.

Lemma rev_chars_last (s x : string) :
  x <> "" -> has_slash x = false ->
  match rev (list_ascii_of_string (s +:+ x)) with
  | c :: _ => is_slash c
  | [] => false
  end = false.
Proof.
  intros Hx Hns. rewrite list_ascii_append, rev_app_distr.
  destruct (rev (list_ascii_of_string x)) as [|c l] eqn:Hrev.
  - destruct x as [|a x]; [congruence|]. simpl in Hrev.
    apply app_eq_nil in Hrev as [_ Hrev]. discriminate Hrev.
  - simpl. apply (proj1 (has_slash_chars x) Hns), in_rev. rewrite Hrev. simpl. auto.
Qed.

(** Joining a clean segment to a normalized path appends the segment. *)
Lemma join_render (segs : list string) (x : string) :
  clean segs -> clean_segment x = true ->
  join (render segs) x = render (segs ++ [x]).
Proof.
  intros Hclean Hx. pose proof Hx as Hx'.
  apply clean_segment_spec in Hx' as (Hne & Hns & _ & _).
  assert (Hlenx : String.length x <> 0) by (destruct x; [congruence | discriminate]).
  set (p := render segs +:+ "/" +:+ x).
  assert (Hpath : String.concat "/" [render segs; x] = p) by reflexivity.
  assert (Hlen : (String.length p =? 0)%nat = false) by reflexivity.
  assert (Habs : isAbsolute p = true) by reflexivity.
  assert (Htrail : match rev (list_ascii_of_string p) with
                   | c :: _ => is_slash c
                   | [] => false
                   end = false).
  { unfold p. rewrite <- append_assoc. by apply rev_chars_last. }
  assert (Hnorm : normalizeString p false = String.concat "/" (segs ++ [x])).
  { unfold normalizeString, p.
    rewrite split_slash_append, normalize_segments_app, normalized_render
      by exact Hclean.
    rewrite (split_slash_segment x Hns).
    rewrite normalize_segments_clean by (by constructor).
    by rewrite rev_involutive. }
  assert (Hnz : (String.length (String.concat "/" (segs ++ [x])) =? 0)%nat = false).
  { apply Nat.eqb_neq. destruct segs as [|s segs]; [exact Hlenx|].
    rewrite concat_snoc by discriminate. rewrite !length_append. simpl. lia. }
  unfold join. rewrite filter_cons_True by discriminate.
  rewrite filter_cons_True, filter_nil by exact Hlenx.
  rewrite Hpath. unfold normalize.
  rewrite Hlen, Habs, Htrail. simpl negb. rewrite Hnorm, Hnz. reflexivity.
Qed.

End ResolveFacts.

(** ** Where the walk goes *)
Module WalkPaths.
Import Js NodePath Async Tool GitTools Walk NormalForm Fixtures.
Import JsFacts PathFacts WalkFacts NormalFormFacts WalkMore ResolveFacts.

Lemma parents_desc_clean (rsegs q : list string) :
  clean rsegs -> q ∈ parents_desc rsegs -> clean q.
Proof.
  induction rsegs as [|x above IH]; simpl; intros Hclean Hq.
  - apply list_elem_of_singleton in Hq as ->. constructor.
  - apply elem_of_cons in Hq as [->|Hq].
    + change (rev above ++ [x])%list with (rev (x :: above)). by apply Forall_rev.
    + apply IH; [|exact Hq]. by inversion Hclean.
Qed.

Lemma lineage_normalized (segs : list string) (d : string) :
  clean segs -> d ∈ lineage segs -> exists q, d = render q /\ clean q.
Proof.
  intros Hclean Hd. unfold lineage in Hd.
  change (map ?f ?l) with (f <$> l) in Hd.
  apply list_elem_of_fmap in Hd as (q & -> & Hq).
  exists q. split; [reflexivity|].
  eapply parents_desc_clean; [|exact Hq]. by apply Forall_rev.
Qed.

(** X6. When the working directory or the given path is absolute, the walk of
    [get_git_repos_from_path] starts at a normalized absolute path and
    visits that path and the path of each of its shorter prefixes, the root
    last: one directory more than the path has segments. *)
Theorem get_git_repos_walks_lineage `{E : Env} (path : string) :
  isAbsolute cwd = true \/ isAbsolute path = true ->
  exists segs,
    clean segs
    /\ NodePath.resolve cwd path = render segs
    /\ ancestors (NodePath.resolve cwd path) = lineage segs
    /\ length (ancestors (NodePath.resolve cwd path)) = S (length segs)
    /\ forall found w,
        walk (walk_budget (render segs)) (render segs) found w
        = visit_all (lineage segs) found w.
Proof.
  intros Habs. destruct (resolve_normal_form cwd path Habs) as (segs & Hres & Hclean).
  exists segs. rewrite Hres, (ancestors_render segs Hclean), lineage_length.
  repeat split; try done.
  intros found w. rewrite <- (ancestors_render segs Hclean).
  apply walk_visit_all, walk_budget_enough.
Qed.

Lemma get_git_repos_walks_lineage_witness :
  ancestors (NodePath.resolve (@cwd repo_env) "repo/../other/./lib")
  = ["/work/other/lib"; "/work/other"; "/work"; "/"].
Proof.
  destruct (@get_git_repos_walks_lineage repo_env "repo/../other/./lib")
    as (segs & _ & Hres & Hanc & _).
  - left. reflexivity.
  - vm_compute. reflexivity.
Defined.

(** X7. The directory probed for a visited directory is its [.git] entry: for
    the normalized path with segments [segs] the probe command tests the
    path with segments [segs] and [.git], also at the root, where no second
    slash appears. *)
Theorem probe_tests_git_entry (segs : list string) :
  clean segs ->
  probe_command (join (render segs) ".git")
  = "[ -d " +:+ dq +:+ render (segs ++ [".git"]) +:+ dq
      +:+ " ] && echo found || echo notfound".
Proof.
  intros Hclean. unfold probe_command. by rewrite join_render.
Qed.

Lemma probe_tests_git_entry_witness :
  probe_command (join "/" ".git")
  = "[ -d " +:+ dq +:+ "/.git" +:+ dq +:+ " ] && echo found || echo notfound"
  /\ probe_command (join "/work/repo" ".git")
     = "[ -d " +:+ dq +:+ "/work/repo/.git" +:+ dq +:+ " ] && echo found || echo notfound".
Proof.
  split.
  - apply (probe_tests_git_entry []). constructor.
  - apply (probe_tests_git_entry ["work"; "repo"]). by repeat constructor.
Defined.

(** X8. When the working directory or the given path is absolute, every path
    the handler lists is absolute and normalized: resolving it again,
    against any working directory, gives it back, so handing a listed path
    to a tool starts from that very directory. *)
Theorem get_git_repos_lists_resolved_paths `{E : Env}
        (args : Args) (path : string) (w : World) :
  prop args "path" = Str path ->
  isAbsolute cwd = true \/ isAbsolute path = true ->
  exists found,
    fst (getGitRepos_handler args w) = Returned (text_result (JSON_stringify found))
    /\ forall d, d ∈ found ->
         isAbsolute d = true /\ forall dir, NodePath.resolve dir d = d.
Proof.
  intros Hpath Habs.
  eexists. split; [by rewrite (handler_walk args path w Hpath)|]. intros d Hd.
  destruct (resolve_normal_form cwd path Habs) as (segs & Hres & Hclean).
  eapply elem_of_sublist in Hd; [|apply repositories_sublist].
  rewrite Hres, (ancestors_render segs Hclean) in Hd.
  destruct (lineage_normalized segs d Hclean Hd) as (q & -> & Hq).
  split; [reflexivity | intros dir; by apply resolve_render].
Qed.

Lemma get_git_repos_lists_resolved_paths_witness :
  exists found,
    fst (@getGitRepos_handler repo_env {[ "path" := Str "repo/src" ]} 0)
    = Returned (text_result (JSON_stringify found))
    /\ forall d, d ∈ found -> NodePath.resolve "/elsewhere" d = d.
Proof.
  assert (Hp : @prop ({[ "path" := Str "repo/src" ]}) "path" = Str "repo/src")
    by reflexivity.
  destruct (@get_git_repos_lists_resolved_paths repo_env _ "repo/src" 0 Hp)
    as (found & Hrun & Hres).
  - left. reflexivity.
  - exists found. split; [exact Hrun|]. intros d Hd. by apply Hres.
Defined.

(** X9. The starting directory at the edges: an empty [path] starts the walk
    at the working directory, and an absolute [path] starts it at the same
    directory whatever the working directory is. *)
Theorem get_git_repos_start_directory `{E : Env} (path : string) (w : World) :
  (isAbsolute cwd = true ->
   getGitRepos_handler {[ "path" := Str "" ]} w
   = getGitRepos_handler {[ "path" := Str cwd ]} w)
  /\ (isAbsolute path = true ->
      forall dir1 dir2, NodePath.resolve dir1 path = NodePath.resolve dir2 path).
Proof.
  split.
  - intros Hcwd.
    assert (Hsame : NodePath.resolve cwd "" = NodePath.resolve cwd cwd).
    { unfold NodePath.resolve. simpl fold_left.
      destruct cwd as [|c0 rest]; [discriminate|]. simpl in *. by rewrite Hcwd. }
    rewrite (handler_walk {[ "path" := Str "" ]} "" w)
      by (unfold prop; by rewrite lookup_singleton_eq).
    rewrite (handler_walk {[ "path" := Str cwd ]} cwd w)
      by (unfold prop; by rewrite lookup_singleton_eq).
    by rewrite Hsame.
  - intros Hp dir1 dir2. unfold NodePath.resolve. simpl fold_left.
    destruct path as [|c p]; [discriminate|]. simpl in *. by rewrite Hp.
Qed.

Lemma get_git_repos_start_directory_witness :
  @getGitRepos_handler repo_env {[ "path" := Str "" ]} 0
  = @getGitRepos_handler repo_env {[ "path" := Str "/work" ]} 0
  /\ NodePath.resolve "/a" "/x/y" = NodePath.resolve "/b/c" "/x/y".
Proof.
  destruct (@get_git_repos_start_directory repo_env "/x/y" 0) as [Hempty Habs].
  split; [apply Hempty; reflexivity | apply Habs; reflexivity].
Defined.

End WalkPaths.

(** ** More on the allow-list *)
Module AllowListMore.
Import Js Async Tool GitTools TestHarness McpServer GitToolsMcpServer Fixtures.
Import RegistryFacts ConstructorFacts.

Section Names.
Context `{E : Env}.

Lemma tool_names_filter (P : string -> Prop) `{!forall n, Decision (P n)}
      (caps : list ToolCapability) :
  tool_names (filter (fun tool => P (Tool.name (definition tool))) caps)
  = filter P (tool_names caps).
Proof.
  unfold tool_names. induction caps as [|c caps IH]; [reflexivity|].
  rewrite filter_cons. simpl map. rewrite filter_cons.
  destruct (decide (P (Tool.name (definition c)))); simpl; by rewrite IH.
Qed.

Lemma filter_all {A} (P : A -> Prop) `{!forall x, Decision (P x)} (l : list A) :
  (forall x, x ∈ l -> P x) -> filter P l = l.
Proof.
  induction l as [|a l IH]; intros Hall; [reflexivity|].
  rewrite filter_cons_True by (apply Hall, list_elem_of_here).
  rewrite IH; [reflexivity|]. intros x Hx. apply Hall, list_elem_of_further, Hx.
Qed.
End Names.

(** X11. Under a non-empty allow-list the names of the registered tools are
    the names of the base list that occur in the allow-list, in the order
    of the base list: at most the six tools, none of them twice, whatever
    the allow-list repeats. An allow-list that holds all six names
    registers the whole base list. *)
Theorem allow_list_registers_named `{E : Env}
        (config : GitToolsMcpServerConfig) (allowed : list string) :
  availableTools config = Some allowed ->
  allowed <> [] ->
  tool_names (registered_tools config)
  = filter (fun n => n ∈ allowed)
           [ "get_git_repos_from_path"; "get_current_branch"; "get_git_status";
             "get_git_log"; "get_git_remotes"; "get_git_config" ]
  /\ NoDup (tool_names (registered_tools config))
  /\ ((forall n, n ∈ tool_names gitTools -> n ∈ allowed) ->
      registered_tools config = gitTools).
Proof.
  intros Hav Hne. rewrite (registered_allowed config allowed Hav Hne).
  assert (Hnames :
            tool_names (filter (fun tool => Js.includes allowed (Tool.name (definition tool)))
                               gitTools)
            = filter (fun n => n ∈ allowed) (tool_names gitTools)).
  { rewrite <- tool_names_filter.
    f_equal. apply list_filter_iff. intros tool. apply includes_spec. }
  split; [|split].
  - by rewrite Hnames, gitTools_names.
  - rewrite Hnames. apply NoDup_filter. rewrite gitTools_names. compute_done.
  - intros Hall. apply filter_all.
    intros tool Htool. apply includes_spec, Hall.
    unfold tool_names. change (map ?f ?l) with (f <$> l).
    apply list_elem_of_fmap. eauto.
Qed.

Lemma allow_list_registers_named_witness :
  @tool_names repo_env
    (registered_tools
       {| toolsetConfig := None; dynamicToolDiscovery := None;
          availableTools := Some ["get_git_log"; "get_git_status"; "get_git_log"] |})
  = ["get_git_status"; "get_git_log"].
Proof.
  destruct (@allow_list_registers_named repo_env
              {| toolsetConfig := None; dynamicToolDiscovery := None;
                 availableTools := Some ["get_git_log"; "get_git_status"; "get_git_log"] |}
              ["get_git_log"; "get_git_status"; "get_git_log"] eq_refl
              ltac:(discriminate)) as (Hnames & _).
  rewrite Hnames. vm_compute. reflexivity.
Defined.

(** X12. Only the set of names in the allow-list matters: two non-empty
    allow-lists holding the same names, in any order and with any
    repetitions, register the same tools. *)
Theorem allow_list_order_irrelevant `{E : Env}
        (config1 config2 : GitToolsMcpServerConfig) (l1 l2 : list string) :
  availableTools config1 = Some l1 ->
  availableTools config2 = Some l2 ->
  l1 <> [] -> l2 <> [] ->
  (forall n, n ∈ l1 <-> n ∈ l2) ->
  registered_tools config1 = registered_tools config2.
Proof.
  intros H1 H2 Hne1 Hne2 Hsame.
  rewrite (registered_allowed config1 l1 H1 Hne1), (registered_allowed config2 l2 H2 Hne2).
  apply list_filter_iff. intros tool. by rewrite !includes_spec.
Qed.

Lemma allow_list_order_irrelevant_witness :
  @registered_tools repo_env
    {| toolsetConfig := None; dynamicToolDiscovery := None;
       availableTools := Some ["get_git_log"; "get_git_status"; "get_git_log"] |}
  = @registered_tools repo_env
      {| toolsetConfig := Some {| mode := all |}; dynamicToolDiscovery := None;
         availableTools := Some ["get_git_status"; "get_git_log"] |}.
Proof.
  apply (@allow_list_order_irrelevant repo_env _ _
           ["get_git_log"; "get_git_status"; "get_git_log"]
           ["get_git_status"; "get_git_log"]);
    try reflexivity; try discriminate.
  intros n. rewrite !elem_of_cons. tauto.
Defined.

Lemma find_name_None `{E : Env} (caps : list ToolCapability) (n : string) :
  List.find (fun t => Tool.name (definition t) =? n) caps = None
  <-> n ∉ tool_names caps.
Proof.
  induction caps as [|c caps IH]; simpl.
  - split; [intros _; apply not_elem_of_nil | reflexivity].
  - rewrite not_elem_of_cons.
    destruct (String.eqb_spec (Tool.name (definition c)) n) as [<-|Hne].
    + split; [discriminate | tauto].
    + rewrite IH. split; [intros ?; split; congruence | tauto].
Qed.

(** X13. The test helper finds each of the six tools by its name and gives the
    handler of that very tool; for any other name it finds nothing. *)
Theorem getToolHandler_finds_own_handler `{E : Env} :
  (forall tool, tool ∈ gitTools ->
     getToolHandler (Tool.name (definition tool)) = Some (handler tool))
  /\ (forall n, getToolHandler n = None <-> n ∉ tool_names gitTools).
Proof.
  split.
  - intros tool Htool. unfold gitTools in Htool.
    repeat (apply elem_of_cons in Htool as [->|Htool]; [reflexivity|]).
    inversion Htool.
  - intros n. unfold getToolHandler. rewrite <- find_name_None.
    destruct (List.find _ gitTools); simpl; split; congruence.
Qed.

Lemma getToolHandler_finds_own_handler_witness :
  @getToolHandler repo_env "get_git_status" = Some (@getStatus_handler repo_env)
  /\ @getToolHandler repo_env "git_status" = None.
Proof.
  destruct (@getToolHandler_finds_own_handler repo_env) as [Hfound Hmiss].
  split.
  - apply (Hfound (createTool getStatusTool getStatus_handler)).
    unfold gitTools. do 2 apply list_elem_of_further. apply list_elem_of_here.
  - apply Hmiss. rewrite gitTools_names. compute_done.
Defined.

End AllowListMore.

(** ** More on the SSE entry point *)
Module SseMore.
Import Sse SseFacts.

Lemma connected_run (requests : list Request) :
  connected (run requests)
  = map (fun c => {| endpoint := "/messages"; res := c |}) (opened requests).
Proof.
  induction requests as [|r requests IH] using rev_ind; [reflexivity|].
  rewrite run_snoc. unfold opened in *. rewrite omap_app, map_app, <- IH.
  destruct r as [c|req]; simpl.
  - reflexivity.
  - rewrite app_nil_r. unfold post_messages. by destruct (transport (run requests)).
Qed.

(** X14. Requests to [/messages] that arrive before any session was opened are
    dropped: no transport is called and the state stays the initial one. *)
Theorem sse_posts_before_first_session_dropped (requests : list Request) :
  opened requests = [] -> run requests = initial.
Proof.
  induction requests as [|r requests IH] using rev_ind; [reflexivity|].
  unfold opened. rewrite omap_app. intros Hnone.
  apply app_eq_nil in Hnone as [Hprev Hlast].
  rewrite run_snoc, (IH Hprev).
  destruct r as [c|req]; [discriminate Hlast | reflexivity].
Qed.

Lemma sse_posts_before_first_session_dropped_witness :
  run [ PostMessages {| sessionId := 1; body := "initialize" |};
        PostMessages {| sessionId := 2; body := "tools/list" |} ] = initial.
Proof. apply sse_posts_before_first_session_dropped. reflexivity. Defined.

(** X15. The server is connected to one new transport for each [GET /sse], in
    the order of arrival, and to nothing else; the variable [transport]
    holds one of the connected transports or nothing, and every message
    handled was handed to a transport that had been connected. *)
Theorem sse_connects_each_session (requests : list Request) :
  connected (run requests)
  = map (fun c => {| endpoint := "/messages"; res := c |}) (opened requests)
  /\ (forall t, transport (run requests) = Some t -> t ∈ connected (run requests))
  /\ (forall t req, (t, req) ∈ handled (run requests) -> t ∈ connected (run requests)).
Proof.
  split; [apply connected_run|].
  induction requests as [|r requests [IHt IHh]] using rev_ind.
  - split; [discriminate | intros t req H; inversion H].
  - rewrite run_snoc. destruct r as [c|req0]; simpl.
    + split.
      * intros t [= <-]. apply elem_of_app. right. apply list_elem_of_here.
      * intros t req Hin. apply elem_of_app. left. eauto.
    + unfold post_messages.
      destruct (transport (run requests)) as [t0|] eqn:Ht; simpl;
        [|split; [rewrite Ht; discriminate | exact IHh]].
      split; [intros t [= <-]; by apply IHt|].
      intros t req Hin. apply elem_of_app in Hin as [Hin|Hin]; [eauto|].
      apply list_elem_of_singleton in Hin as [= -> ->]. by apply IHt.
Qed.

Lemma sse_connects_each_session_witness :
  connected (run [ GetSse 1; PostMessages {| sessionId := 1; body := "a" |};
                   GetSse 2; PostMessages {| sessionId := 1; body := "b" |} ])
  = [ {| endpoint := "/messages"; res := 1 |}; {| endpoint := "/messages"; res := 2 |} ].
Proof.
  destruct (sse_connects_each_session
              [ GetSse 1; PostMessages {| sessionId := 1; body := "a" |};
                GetSse 2; PostMessages {| sessionId := 1; body := "b" |} ])
    as (Hconn & _).
  rewrite Hconn. reflexivity.
Defined.

End SseMore.

(** ** The text of an answer determines the list *)
Module JsonFacts.
Import Js Async Tool GitTools JsonText NormalFormFacts.

Lemma read_escape_char (c : ascii) (rest : string) :
  read_literal (json_escape_char c +:+ rest) = prepend c (read_literal rest).
Proof.
  destruct c as [[] [] [] [] [] [] [] []]; reflexivity.
Qed.

(** Reading back an escaped text up to its closing quote gives the text. *)
Lemma read_escaped (s tail : string) :
  read_literal (json_escape s +:+ dq +:+ tail) = Some (s, tail).
Proof.
  induction s as [|c s IH]; [reflexivity|].
  cbn [json_escape]. rewrite append_assoc, read_escape_char, IH. reflexivity.
Qed.

Lemma items_head (x : string) (rest : list string) :
  String.concat "," (map json_string (x :: rest)) +:+ "]"
  = String dquote_char (json_escape x +:+ dq +:+ after_first rest).
Proof.
  destruct rest as [|y rest].
  - change (String.concat "," (map json_string [x])) with (json_string x).
    unfold json_string, after_first. by rewrite !append_assoc.
  - change (String.concat "," (map json_string (x :: y :: rest)))
      with (json_string x +:+ "," +:+ String.concat "," (map json_string (y :: rest))).
    unfold after_first. set (others := String.concat "," (map json_string (y :: rest))).
    unfold json_string. by rewrite !append_assoc.
Qed.

Lemma items_injective (xs ys : list string) :
  String.concat "," (map json_string xs) +:+ "]"
  = String.concat "," (map json_string ys) +:+ "]" ->
  xs = ys.
Proof.
  revert ys. induction xs as [|x xs IH]; intros [|y ys].
  - reflexivity.
  - rewrite items_head. discriminate.
  - rewrite items_head. discriminate.
  - rewrite !items_head. intros [= Heq].
    apply (f_equal read_literal) in Heq. rewrite !read_escaped in Heq.
    injection Heq as -> Hrest. f_equal.
    destruct xs as [|x' xs], ys as [|y' ys]; try reflexivity; try discriminate Hrest.
    apply IH. unfold after_first in Hrest. by injection Hrest.
Qed.

(** X16. [JSON.stringify] is injective on lists of strings: two different
    lists never give the same text, whatever quotes, backslashes, commas,
    brackets or control characters the strings hold, so the text of an
    answer determines the list of directories. *)
Theorem JSON_stringify_injective (xs ys : list string) :
  xs <> ys -> JSON_stringify xs <> JSON_stringify ys.
Proof.
  intros Hne Heq. apply Hne. unfold JSON_stringify in Heq.
  injection Heq as Heq. by apply items_injective.
Qed.

(** A name that holds a quote, a comma and a quote is not mistaken for
    two names. *)
Lemma JSON_stringify_injective_witness :
  JSON_stringify ["a" +:+ dq +:+ "," +:+ dq +:+ "b"] <> JSON_stringify ["a"; "b"].
Proof. apply JSON_stringify_injective. discriminate. Defined.

End JsonFacts.

(** ** Trailing separators *)
Module TrailingSlash.
Import Js NodePath Async Tool GitTools Walk Fixtures.
Import WalkFacts NormalFormFacts ResolveFacts.

Lemma normalizeString_trailing (s : string) (b : bool) :
  normalizeString (s +:+ "/") b = normalizeString s b.
Proof.
  unfold normalizeString. f_equal.
  change (s +:+ "/") with (s +:+ "/" +:+ "").
  rewrite split_slash_append, normalize_segments_app.
  change (split_slash "") with [""]. simpl. by rewrite rev_involutive.
Qed.

Lemma normalizeString_trailing2 (s : string) (b : bool) :
  normalizeString (s +:+ "//") b = normalizeString (s +:+ "/") b.
Proof.
  change (s +:+ "//") with (s +:+ "/" +:+ "/").
  by rewrite <- append_assoc, normalizeString_trailing.
Qed.

Lemma resolve_trailing_slash (cwd path : string) :
  path <> "" -> NodePath.resolve cwd (path +:+ "/") = NodePath.resolve cwd path.
Proof.
  intros Hne. destruct path as [|c p]; [congruence|].
  unfold NodePath.resolve. simpl fold_left.
  change (String.length (String c p +:+ "/") =? 0)%nat with false.
  change (String.length (String c p) =? 0)%nat with false.
  change (isAbsolute (String c p +:+ "/")) with (is_slash c).
  change (isAbsolute (String c p)) with (is_slash c).
  cbv iota beta. simpl snd. simpl fst.
  assert (H1 : forall b, normalizeString ((String c p +:+ "/") +:+ "/" +:+ "") b
                    = normalizeString (String c p +:+ "/" +:+ "") b).
  { intros b. rewrite append_assoc.
    change ("/" +:+ "/" +:+ "") with "//". change ("/" +:+ "") with "/".
    apply normalizeString_trailing2. }
  assert (H2 : forall b, normalizeString (cwd +:+ "/" +:+ (String c p +:+ "/") +:+ "/" +:+ "") b
                    = normalizeString (cwd +:+ "/" +:+ String c p +:+ "/" +:+ "") b).
  { intros b.
    replace (cwd +:+ "/" +:+ (String c p +:+ "/") +:+ "/" +:+ "")
      with ((cwd +:+ "/" +:+ String c p) +:+ "//")
      by (rewrite !append_assoc; reflexivity).
    replace (cwd +:+ "/" +:+ String c p +:+ "/" +:+ "")
      with ((cwd +:+ "/" +:+ String c p) +:+ "/")
      by (rewrite !append_assoc; reflexivity).
    apply normalizeString_trailing2. }
  destruct (is_slash c);
    [|destruct (String.length cwd =? 0)%nat; [|destruct (isAbsolute cwd)]];
    cbv iota beta; rewrite ?H1, ?H2; reflexivity.
Qed.

(** X10. A trailing slash on a non-empty [path] changes nothing: the handler of
    [get_git_repos_from_path] starts from the same directory and behaves
    the same in every world. *)
Theorem get_git_repos_trailing_slash `{E : Env} (path : string) (w : World) :
  path <> "" ->
  getGitRepos_handler {[ "path" := Str (path +:+ "/") ]} w
  = getGitRepos_handler {[ "path" := Str path ]} w.
Proof.
  intros Hne.
  rewrite (handler_walk {[ "path" := Str (path +:+ "/") ]} (path +:+ "/") w)
    by (unfold prop; by rewrite lookup_singleton_eq).
  rewrite (handler_walk {[ "path" := Str path ]} path w)
    by (unfold prop; by rewrite lookup_singleton_eq).
  by rewrite resolve_trailing_slash.
Qed.

Lemma get_git_repos_trailing_slash_witness :
  @getGitRepos_handler repo_env {[ "path" := Str "/work/repo/" ]} 0
  = @getGitRepos_handler repo_env {[ "path" := Str "/work/repo" ]} 0.
Proof.
  apply (@get_git_repos_trailing_slash repo_env "/work/repo" 0). discriminate.
Defined.

End TrailingSlash.

(** ** The loop of the test and the loop of the handler *)
Module TestLoopFacts.
Import Js NodePath Async Tool GitTools Walk Stable TestLoop Fixtures.
Import PathFacts WalkFacts WalkMore.

Section Agreement.
Context `{E : Env}.

Lemma try_probe_once_stable (oracle : string -> ExecResult)
      (d : string) (found : list string) (w : World) :
  stable oracle ->
  exists w1,
    try_probe_once d found w
    = (Returned (if answers_found (oracle (probe_command (join d ".git")))
                 then (found ++ [d])%list else found), w1).
Proof.
  intros Hst. unfold try_probe_once, try_catch, bind, exec, ret.
  pose proof (Hst (probe_command (join d ".git")) w) as H1.
  destruct (execAsync _ w) as [r1 w1]. simpl in H1. subst r1.
  exists w1. destruct (oracle _) as [out|e]; simpl; [|reflexivity].
  by destruct (trim (stdout out) =? "found").
Qed.

Lemma walk_once_stable (oracle : string -> ExecResult)
      (fuel : nat) (current : string) (found : list string) (w : World) :
  stable oracle ->
  path_measure current < fuel ->
  fst (walk_once fuel current found w)
  = Returned
      (found ++ filter (fun d => answers_found (oracle (probe_command (join d ".git"))))
                       (chain fuel current))%list.
Proof.
  intros Hst. revert current found w.
  induction fuel as [|fuel IH]; intros current found w Hm; [lia|].
  cbn [walk_once chain]. unfold bind.
  destruct (try_probe_once_stable oracle current found w Hst) as (w1 & ->).
  rewrite filter_cons.
  destruct (String.eqb_spec (dirname current) current) as [Heq|Hne].
  - unfold ret. simpl. rewrite filter_nil.
    destruct (answers_found _); simpl; [reflexivity | by rewrite app_nil_r].
  - rewrite IH by (apply dirname_decreases in Hne; lia).
    destruct (answers_found _); simpl; [by rewrite <- app_assoc | reflexivity].
Qed.
End Agreement.

(** X17. In an environment that answers each command line the same way in
    every world, the loop of the test, which probes each directory once,
    finds the same directories as the loop of the handler, which probes
    each directory twice. *)
Theorem test_loop_agrees_with_handler `{E : Env}
        (oracle : string -> ExecResult) (start : string) (w w' : World) :
  stable oracle ->
  fst (walk_once (walk_budget start) start [] w)
  = fst (walk (walk_budget start) start [] w').
Proof.
  intros Hst.
  rewrite (walk_once_stable oracle) by (auto; apply walk_budget_enough).
  rewrite walk_visit_all by apply walk_budget_enough.
  rewrite visit_all_survey. simpl.
  by rewrite (survey_stable oracle).
Qed.

Lemma test_loop_agrees_with_handler_witness :
  fst (@walk_once repo_env (walk_budget "/work/repo/src") "/work/repo/src" [] 0)
  = fst (@walk repo_env (walk_budget "/work/repo/src") "/work/repo/src" [] 0)
  /\ snd (@walk_once repo_env (walk_budget "/work/repo/src") "/work/repo/src" [] 0) = 4
  /\ snd (@walk repo_env (walk_budget "/work/repo/src") "/work/repo/src" [] 0) = 6.
Proof.
  split.
  - apply (@test_loop_agrees_with_handler repo_env
             (fun cmd => fst (@execAsync repo_env cmd 0))).
    intros cmd w. reflexivity.
  - split; vm_compute; reflexivity.
Defined.

End TestLoopFacts.
